(** * Account flows of the user manager and of the official-contact-email
      verification manager

    A shallow embedding of [managers/user] (password login, signup, e-mail
    verification, magic link, password reset, personal information) and of
    [managers/organization/official-contact-email-verification.ts].

    Every exported flow is an [async] function that awaits its collaborators
    one after the other.  It is embedded as a computation in a small monad
    [M] that threads the persistent store, returns either a value or a thrown
    error, and records the collaborator calls it makes, in order.

    Numbers: the only arithmetic of the source is on integral millisecond
    counts and on the sign-in counter, all far below 2^53, so a JavaScript
    number is a [Z] here, and a [Date] carries a finite time value.
    Collaborators are taken not to fail, except the directory lookup, whose
    failure the source catches. *)

From Stdlib Require Import ZArith List String Bool Lia.
Import ListNotations.

Local Open Scope string_scope.
Local Open Scope list_scope.
Local Open Scope Z_scope.

(** ** JavaScript values *)

(** The values that reach a timestamp or a free-text position.
    [JIsoString ms] is the string [new Date(ms).toISOString()]; [JDate ms] is
    a [Date] object whose time value is [ms]. *)
Inductive jsvalue : Type :=
| JUndefined
| JNull
| JString (s : string)
| JIsoString (ms : Z)
| JDate (ms : Z).

(** lodash [isString]. *)
Definition isString (v : jsvalue) : bool :=
  match v with
  | JString _ | JIsoString _ => true
  | _ => false
  end.

(** [!token] for a token argument: [None] is [undefined]/[null], and the
    empty string is falsy too. *)
Definition falsy (token : option string) : bool :=
  match token with
  | None => true
  | Some s => String.eqb s ""
  end.

Definition option_string_eqb (a b : option string) : bool :=
  match a, b with
  | None, None => true
  | Some x, Some y => String.eqb x y
  | _, _ => false
  end.

(** ** Records of the store *)

Record User : Type := mkUser {
  id : Z;
  email : string;
  encrypted_password : option string;
  email_verified : bool;
  sign_in_count : Z;
  last_sign_in_at : jsvalue;
  verify_email_token : option string;
  verify_email_sent_at : jsvalue;
  magic_link_token : option string;
  magic_link_sent_at : jsvalue;
  reset_password_token : option string;
  reset_password_sent_at : jsvalue;
  given_name : jsvalue;
  family_name : jsvalue;
  phone_number : jsvalue;
  job : jsvalue
}.

(** A row of [getUsers organization_id]: the member's account columns the
    manager reads, joined with the columns of the user-organization link. *)
Record Member : Type := mkMember {
  m_organization_id : Z;
  m_id : Z;
  m_email : string;
  m_given_name : jsvalue;
  m_family_name : jsvalue;
  needs_official_contact_email_verification : bool;
  official_contact_email_verification_token : option string;
  official_contact_email_verification_sent_at : jsvalue
}.

Record Organization : Type := mkOrganization {
  o_id : Z;
  cached_code_officiel_geographique : option string;
  cached_libelle : option string
}.

(** The three token slots of an account. *)
Inductive Slot : Type := VerifyEmail | MagicLink | ResetPassword.

(** One [key: value] entry of the object handed to [update]. *)
Inductive Assignment : Type :=
| Email_verified (v : bool)
| Sign_in_count (v : Z)
| Last_sign_in_at (v : jsvalue)
| Encrypted_password (v : string)
| Token (s : Slot) (v : option string)
| Sent_at (s : Slot) (v : jsvalue)
| Given_name (v : jsvalue)
| Family_name (v : jsvalue)
| Phone_number (v : jsvalue)
| Job (v : jsvalue).

Abbreviation Verify_email_token := (Token VerifyEmail).
Abbreviation Verify_email_sent_at := (Sent_at VerifyEmail).
Abbreviation Magic_link_token := (Token MagicLink).
Abbreviation Magic_link_sent_at := (Sent_at MagicLink).
Abbreviation Reset_password_token := (Token ResetPassword).
Abbreviation Reset_password_sent_at := (Sent_at ResetPassword).

(** One entry of the object handed to [updateUserOrganizationLink]. *)
Inductive LinkAssignment : Type :=
| Needs_official_contact_email_verification (v : bool)
| Official_contact_email_verification_token (v : option string)
| Official_contact_email_verification_sent_at (v : jsvalue).

Record Mail : Type := mkMail {
  to : list string;
  subject : string;
  template : string;
  params : list (string * jsvalue)
}.

(** ** Errors, results, events *)

Inductive error : Type :=
| invalid_email
| invalid_credentials
| email_unavailable
| weak_password
| email_verified_already
| invalid_token
| invalid_magic_link
| invalid_personal_informations
| NotFoundError
| InvalidTokenError
| OfficialContactEmailVerificationNotNeededError
| ApiAnnuaireError
| UpstreamError      (* whatever the directory connector throws *)
| TypeError.         (* property read on [undefined] *)

Inductive Result (A : Type) : Type :=
| Ok (a : A)
| Throw (e : error).
Arguments Ok {A} a.
Arguments Throw {A} e.

(** The collaborator calls a flow makes. *)
Inductive Event : Type :=
| EvFindByEmail (email : string)
| EvFindByVerifyEmailToken (token : option string)
| EvFindByMagicLinkToken (token : option string)
| EvFindByResetPasswordToken (token : option string)
| EvCreate (email : string) (encrypted_password : option string)
| EvUpdate (id : Z) (fields : list Assignment)
| EvGetUsers (organization_id : Z)
| EvFindOrganizationById (organization_id : Z)
| EvUpdateUserOrganizationLink (organization_id user_id : Z)
                               (fields : list LinkAssignment)
| EvGetContactEmail (code : option string)
| EvIsEmailSafeToSendTransactional (email : string)
| EvSendMail (m : Mail)
| EvGeneratePinToken
| EvGenerateToken
| EvGenerateDicewarePassword
| EvHashPassword (password : string)
| EvValidatePassword (password : string) (hash : option string)
| EvIsPasswordSecure (password : string)
| EvIsPhoneNumberValid (v : jsvalue).

(** ** The store and the monad *)

Record World : Type := mkWorld {
  users : list User;
  members : list Member;
  organizations : list Organization;
  next_id : Z;        (* the id the next created account receives *)
  draws : nat;        (* how many tokens the generators have produced *)
  reads : nat         (* how many times the clock has been read *)
}.

Record Run (A : Type) : Type := mkRun {
  res : Result A;
  final : World;
  trace : list Event
}.
Arguments mkRun {A} res final trace.
Arguments res {A} r.
Arguments final {A} r.
Arguments trace {A} r.

Definition M (A : Type) : Type := World -> Run A.

Definition ret {A : Type} (a : A) : M A :=
  fun w => mkRun (Ok a) w [].

Definition throw {A : Type} (e : error) : M A :=
  fun w => mkRun (Throw e) w [].

Definition bind {A B : Type} (m : M A) (k : A -> M B) : M B :=
  fun w =>
    match m w with
    | mkRun (Ok a) w1 t1 =>
        match k a w1 with
        | mkRun r w2 t2 => mkRun r w2 (t1 ++ t2)
        end
    | mkRun (Throw e) w1 t1 => mkRun (Throw e) w1 t1
    end.

(** [try { m } catch (error) { h }]. *)
Definition try_catch {A : Type} (m : M A) (h : error -> M A) : M A :=
  fun w =>
    match m w with
    | mkRun (Ok a) w1 t1 => mkRun (Ok a) w1 t1
    | mkRun (Throw e) w1 t1 =>
        match h e w1 with
        | mkRun r w2 t2 => mkRun r w2 (t1 ++ t2)
        end
    end.

Notation "x <- m ;; k" := (bind m (fun x => k))
  (at level 61, m at next level, right associativity).
Notation "m ;;; k" := (bind m (fun _ => k))
  (at level 61, right associativity).

(** [emit e a]: a collaborator call that answers [a] and leaves the store as
    it is. *)
Definition emit {A : Type} (e : Event) (a : A) : M A :=
  fun w => mkRun (Ok a) w [e].

(** Reading a property of a record that may be [undefined]. *)
Definition defined {A : Type} (o : option A) : M A :=
  match o with
  | Some a => ret a
  | None => throw TypeError
  end.

(** lodash [isEmpty] on what a lookup returns. *)
Definition isEmpty {A : Type} (o : option A) : bool :=
  match o with
  | Some _ => false
  | None => true
  end.

(** ** Projections of a trace *)

Definition is_lookup (e : Event) : bool :=
  match e with
  | EvFindByEmail _ | EvFindByVerifyEmailToken _ | EvFindByMagicLinkToken _
  | EvFindByResetPasswordToken _ | EvGetUsers _ | EvFindOrganizationById _ =>
      true
  | _ => false
  end.

Definition is_write (e : Event) : bool :=
  match e with
  | EvCreate _ _ | EvUpdate _ _ | EvUpdateUserOrganizationLink _ _ _ => true
  | _ => false
  end.

Definition is_generation (e : Event) : bool :=
  match e with
  | EvGeneratePinToken | EvGenerateToken | EvGenerateDicewarePassword => true
  | _ => false
  end.

Definition lookups (t : list Event) : list Event := filter is_lookup t.
Definition writes (t : list Event) : list Event := filter is_write t.
Definition generations (t : list Event) : list Event := filter is_generation t.

Fixpoint mails (t : list Event) : list Mail :=
  match t with
  | [] => []
  | EvSendMail m :: t' => m :: mails t'
  | _ :: t' => mails t'
  end.

(** ** The services the flows call *)

(** What the opaque collaborators answer.  The clock is indexed by the number
    of earlier readings and the generators by the number of earlier draws, so
    that any sequence of readings and of tokens can be supplied. *)
Record Services : Type := mkServices {
  svc_clock : nat -> Z;
  svc_pin_token : nat -> string;
  svc_token : nat -> string;
  svc_diceware_password : nat -> string;
  svc_hashPassword : string -> string;
  svc_validatePassword : string -> option string -> bool;
  svc_isPasswordSecure : string -> bool;
  svc_isPhoneNumberValid : jsvalue -> bool;
  svc_isEmailSafeToSendTransactional : string -> bool;
  svc_getContactEmail : option string -> option string;  (* [None]: throws *)
  svc_API_AUTH_HOST : string
}.

(** ** The repositories *)

(** Modelled from the spec: the repositories are not among the sources.  A
    timestamp column holds the instant it is given, as a [Date] or as an ISO
    string, or null, and is read back as a [Date]. *)
Definition timestamptz (v : jsvalue) : jsvalue :=
  match v with
  | JIsoString ms | JDate ms => JDate ms
  | _ => JNull
  end.

Definition assign (a : Assignment) (u : User) : User :=
  let '(mkUser i e p ev c l vt vs mt ms rt rs g f ph j) := u in
  match a with
  | Email_verified v => mkUser i e p v c l vt vs mt ms rt rs g f ph j
  | Sign_in_count v => mkUser i e p ev v l vt vs mt ms rt rs g f ph j
  | Last_sign_in_at v =>
      mkUser i e p ev c (timestamptz v) vt vs mt ms rt rs g f ph j
  | Encrypted_password v => mkUser i e (Some v) ev c l vt vs mt ms rt rs g f ph j
  | Token VerifyEmail v => mkUser i e p ev c l v vs mt ms rt rs g f ph j
  | Sent_at VerifyEmail v =>
      mkUser i e p ev c l vt (timestamptz v) mt ms rt rs g f ph j
  | Token MagicLink v => mkUser i e p ev c l vt vs v ms rt rs g f ph j
  | Sent_at MagicLink v =>
      mkUser i e p ev c l vt vs mt (timestamptz v) rt rs g f ph j
  | Token ResetPassword v => mkUser i e p ev c l vt vs mt ms v rs g f ph j
  | Sent_at ResetPassword v =>
      mkUser i e p ev c l vt vs mt ms rt (timestamptz v) g f ph j
  | Given_name v => mkUser i e p ev c l vt vs mt ms rt rs v f ph j
  | Family_name v => mkUser i e p ev c l vt vs mt ms rt rs g v ph j
  | Phone_number v => mkUser i e p ev c l vt vs mt ms rt rs g f v j
  | Job v => mkUser i e p ev c l vt vs mt ms rt rs g f ph v
  end.

(** The entries of an object literal are applied in order. *)
Fixpoint apply_patch (fields : list Assignment) (u : User) : User :=
  match fields with
  | [] => u
  | a :: fields' => apply_patch fields' (assign a u)
  end.

Definition assign_link (a : LinkAssignment) (m : Member) : Member :=
  let '(mkMember o i e g f n t s) := m in
  match a with
  | Needs_official_contact_email_verification v => mkMember o i e g f v t s
  | Official_contact_email_verification_token v => mkMember o i e g f n v s
  | Official_contact_email_verification_sent_at v =>
      mkMember o i e g f n t (timestamptz v)
  end.

Fixpoint apply_link_patch (fields : list LinkAssignment) (m : Member)
  : Member :=
  match fields with
  | [] => m
  | a :: fields' => apply_link_patch fields' (assign_link a m)
  end.

Definition token_of (s : Slot) (u : User) : option string :=
  match s with
  | VerifyEmail => verify_email_token u
  | MagicLink => magic_link_token u
  | ResetPassword => reset_password_token u
  end.

Definition sent_at_of (s : Slot) (u : User) : jsvalue :=
  match s with
  | VerifyEmail => verify_email_sent_at u
  | MagicLink => magic_link_sent_at u
  | ResetPassword => reset_password_sent_at u
  end.

(** Modelled from the spec: [repositories/user] is not among the sources.
    Lookup by e-mail returns the account with that address, if any. *)
Definition user_by_email (email' : string) (us : list User) : option User :=
  find (fun u => String.eqb (email u) email') us.

(** Modelled from the spec: [repositories/user] is not among the sources.
    Lookup by token returns an account whose stored token of that kind is the
    given one; the spec says an empty or default token is a wildcard match in
    the lookup layer (the source: it will match all users). *)
Definition user_by_token (s : Slot) (token : option string) (us : list User)
  : option User :=
  find (fun u => if falsy token then true
                 else option_string_eqb (token_of s u) token) us.

Definition user_by_id (i : Z) (us : list User) : option User :=
  find (fun u => id u =? i) us.

(** Modelled from the spec: update-by-id writes the given columns of the
    account with that id and returns it. *)
Definition update_rows (i : Z) (fields : list Assignment) (us : list User)
  : list User :=
  map (fun u => if id u =? i then apply_patch fields u else u) us.

(** Modelled from the spec: a created account has the given address and
    password hash; it is unverified, has never signed in, and all its token
    slots are empty (token and timestamp both null). *)
Definition new_user (i : Z) (email' : string) (hash : option string) : User :=
  mkUser i email' hash false 0 JNull None JNull None JNull None JNull
         JNull JNull JNull JNull.

(** Modelled from the spec: [repositories/organization] is not among the
    sources.  Members of an organization, the organization by id, and the
    per-member update of the link columns. *)
Definition users_of (organization_id : Z) (ms : list Member) : list Member :=
  filter (fun m => m_organization_id m =? organization_id) ms.

Definition organization_by_id (organization_id : Z) (os : list Organization)
  : option Organization :=
  find (fun o => o_id o =? organization_id) os.

Definition is_link (organization_id user_id : Z) (m : Member) : bool :=
  (m_organization_id m =? organization_id) && (m_id m =? user_id).

Definition update_links (organization_id user_id : Z)
           (fields : list LinkAssignment) (ms : list Member) : list Member :=
  map (fun m => if is_link organization_id user_id m
                then apply_link_patch fields m else m) ms.

Definition with_users (us : list User) (w : World) : World :=
  mkWorld us (members w) (organizations w) (next_id w) (draws w) (reads w).

Definition with_members (ms : list Member) (w : World) : World :=
  mkWorld (users w) ms (organizations w) (next_id w) (draws w) (reads w).

Definition with_new_user (u : User) (w : World) : World :=
  mkWorld (users w ++ [u]) (members w) (organizations w) (next_id w + 1)
          (draws w) (reads w).

Definition drawn (w : World) : World :=
  mkWorld (users w) (members w) (organizations w) (next_id w)
          (S (draws w)) (reads w).

Definition tick (w : World) : World :=
  mkWorld (users w) (members w) (organizations w) (next_id w)
          (draws w) (S (reads w)).

(** ** The collaborators as monadic calls *)

Section Flows.

Variable svc : Services.

(** [new Date()]: one reading of the clock. *)
Definition new_Date : M Z :=
  fun w => mkRun (Ok (svc_clock svc (reads w))) (tick w) [].

(** Modelled from the spec: the repository calls answer from the store; a
    lookup that finds nothing answers [undefined], here [None]. *)
Definition findByEmail (email' : string) : M (option User) :=
  fun w => emit (EvFindByEmail email') (user_by_email email' (users w)) w.

Definition findByVerifyEmailToken (token : option string) : M (option User) :=
  fun w => emit (EvFindByVerifyEmailToken token)
                (user_by_token VerifyEmail token (users w)) w.

Definition findByMagicLinkToken (token : option string) : M (option User) :=
  fun w => emit (EvFindByMagicLinkToken token)
                (user_by_token MagicLink token (users w)) w.

Definition findByResetPasswordToken (token : option string)
  : M (option User) :=
  fun w => emit (EvFindByResetPasswordToken token)
                (user_by_token ResetPassword token (users w)) w.

Definition create (email' : string) (hash : option string) : M User :=
  fun w =>
    let u := new_user (next_id w) email' hash in
    mkRun (Ok u) (with_new_user u w) [EvCreate email' hash].

Definition update (i : Z) (fields : list Assignment) : M (option User) :=
  fun w =>
    let us := update_rows i fields (users w) in
    mkRun (Ok (user_by_id i us)) (with_users us w) [EvUpdate i fields].

Definition getUsers (organization_id : Z) : M (list Member) :=
  fun w => emit (EvGetUsers organization_id)
                (users_of organization_id (members w)) w.

Definition findOrganizationById (organization_id : Z)
  : M (option Organization) :=
  fun w => emit (EvFindOrganizationById organization_id)
                (organization_by_id organization_id (organizations w)) w.

Definition updateUserOrganizationLink (organization_id user_id : Z)
           (fields : list LinkAssignment) : M (option Member) :=
  fun w =>
    let ms := update_links organization_id user_id fields (members w) in
    mkRun (Ok (find (is_link organization_id user_id) ms))
          (with_members ms w)
          [EvUpdateUserOrganizationLink organization_id user_id fields].

Definition getContactEmail (code : option string) : M string :=
  fun w =>
    mkRun (match svc_getContactEmail svc code with
           | Some address => Ok address
           | None => Throw UpstreamError
           end) w [EvGetContactEmail code].

Definition isEmailSafeToSendTransactional (email' : string) : M bool :=
  emit (EvIsEmailSafeToSendTransactional email')
       (svc_isEmailSafeToSendTransactional svc email').

Definition sendMail (m : Mail) : M unit := emit (EvSendMail m) tt.

Definition generatePinToken : M string :=
  fun w => mkRun (Ok (svc_pin_token svc (draws w))) (drawn w)
                 [EvGeneratePinToken].

Definition generateToken : M string :=
  fun w => mkRun (Ok (svc_token svc (draws w))) (drawn w) [EvGenerateToken].

Definition generateDicewarePassword : M string :=
  fun w => mkRun (Ok (svc_diceware_password svc (draws w))) (drawn w)
                 [EvGenerateDicewarePassword].

Definition hashPassword (password : string) : M string :=
  emit (EvHashPassword password) (svc_hashPassword svc password).

Definition validatePassword (password : string) (hash : option string)
  : M bool :=
  emit (EvValidatePassword password hash)
       (svc_validatePassword svc password hash).

Definition isPasswordSecure (password : string) : M bool :=
  emit (EvIsPasswordSecure password) (svc_isPasswordSecure svc password).

Definition isPhoneNumberValid (v : jsvalue) : M bool :=
  emit (EvIsPhoneNumberValid v) (svc_isPhoneNumberValid svc v).

(** ** managers/user *)

Definition RESET_PASSWORD_TOKEN_EXPIRATION_DURATION_IN_MINUTES : Z := 60.
Definition VERIFY_EMAIL_TOKEN_EXPIRATION_DURATION_IN_MINUTES : Z := 60.
Definition MAGIC_LINK_TOKEN_EXPIRATION_DURATION_IN_MINUTES : Z := 10.

Definition isExpired (emittedDate : jsvalue)
           (expirationDurationInMinutes : Z) : M bool :=
  match emittedDate with
  | JDate emitted =>
      nowDate <- new_Date ;;
      ret (nowDate - emitted >? expirationDurationInMinutes * 60000)
  | _ => ret true
  end.

Definition startLogin (email' : string) : M (string * bool) :=
  found <- findByEmail email' ;;
  let userExists := negb (isEmpty found) in
  invalid <- (if negb userExists
              then safe <- isEmailSafeToSendTransactional email' ;;
                   ret (negb safe)
              else ret false) ;;
  if invalid then throw invalid_email else ret (email', userExists).

Definition login (email' password : string) : M (option User) :=
  found <- findByEmail email' ;;
  match found with
  | None => throw invalid_credentials
  | Some user =>
      isMatch <- validatePassword password (encrypted_password user) ;;
      if negb isMatch then throw invalid_credentials
      else
        now <- new_Date ;;
        update (id user) [Sign_in_count (sign_in_count user + 1);
                          Last_sign_in_at (JIsoString now)]
  end.

Definition signup (email' password : string) : M User :=
  found <- findByEmail email' ;;
  if negb (isEmpty found) then throw email_unavailable
  else
    secure <- isPasswordSecure password ;;
    if negb secure then throw weak_password
    else
      hashedPassword <- hashPassword password ;;
      create email' (Some hashedPassword).

Definition sendEmailAddressVerificationEmail (email' : string)
           (checkBeforeSend : bool) : M bool :=
  found <- findByEmail email' ;;
  user <- defined found ;;
  if email_verified user then throw email_verified_already
  else
    skip <- (if checkBeforeSend
             then expired <-
                    isExpired (verify_email_sent_at user)
                              VERIFY_EMAIL_TOKEN_EXPIRATION_DURATION_IN_MINUTES ;;
                  ret (negb expired)
             else ret false) ;;
    if skip then ret false
    else
      token <- generatePinToken ;;
      now <- new_Date ;;
      update (id user) [Verify_email_token (Some token);
                        Verify_email_sent_at (JIsoString now)] ;;;
      sendMail {| to := [email user];
                  subject := String.append
                               "Code de confirmation api.gouv.fr : " token;
                  template := "verify-email";
                  params := [("verify_email_token", JString token)] |} ;;;
      ret true.

Definition verifyEmail (token : option string) : M (option User) :=
  found <- findByVerifyEmailToken token ;;
  match found with
  | None => throw invalid_token
  | Some user =>
      isTokenExpired <-
        isExpired (verify_email_sent_at user)
                  VERIFY_EMAIL_TOKEN_EXPIRATION_DURATION_IN_MINUTES ;;
      if isTokenExpired then throw invalid_token
      else update (id user) [Email_verified true;
                             Verify_email_token None;
                             Verify_email_sent_at JNull]
  end.

Definition sendSendMagicLinkEmail (email' : string) : M bool :=
  found <- findByEmail email' ;;
  user <- match found with
          | None => create email' None
          | Some user => ret user
          end ;;
  magicLinkToken <- generateToken ;;
  now <- new_Date ;;
  update (id user) [Magic_link_token (Some magicLinkToken);
                    Magic_link_sent_at (JIsoString now)] ;;;
  sendMail {| to := [email user];
              subject := "Connexion avec un lien magique";
              template := "magic-link";
              params :=
                [("magic_link",
                  JString
                    (String.append (svc_API_AUTH_HOST svc)
                       (String.append
                          "/users/sign-in-with-magic-link?magic_link_token="
                          magicLinkToken)))] |} ;;;
  ret true.

Definition loginWithMagicLink (token : option string) : M (option User) :=
  if falsy token then throw invalid_magic_link
  else
    found <- findByMagicLinkToken token ;;
    match found with
    | None => throw invalid_magic_link
    | Some user =>
        isTokenExpired <-
          isExpired (magic_link_sent_at user)
                    MAGIC_LINK_TOKEN_EXPIRATION_DURATION_IN_MINUTES ;;
        if isTokenExpired then throw invalid_magic_link
        else update (id user) [Email_verified true;
                               Magic_link_token None;
                               Magic_link_sent_at JNull]
    end.

Definition sendResetPasswordEmail (email' : string) : M bool :=
  found <- findByEmail email' ;;
  match found with
  | None => ret true
  | Some user =>
      resetPasswordToken <- generateToken ;;
      now <- new_Date ;;
      update (id user) [Reset_password_token (Some resetPasswordToken);
                        Reset_password_sent_at (JIsoString now)] ;;;
      sendMail {| to := [email user];
                  subject :=
                    "Instructions pour la réinitialisation du mot de passe";
                  template := "reset-password";
                  params :=
                    [("reset_password_link",
                      JString
                        (String.append (svc_API_AUTH_HOST svc)
                           (String.append
                              "/users/change-password?reset_password_token="
                              resetPasswordToken)))] |} ;;;
      ret true
  end.

Definition changePassword (token : option string) (password : string)
  : M (option User) :=
  if falsy token then throw invalid_token
  else
    found <- findByResetPasswordToken token ;;
    match found with
    | None => throw invalid_token
    | Some user =>
        isTokenExpired <-
          isExpired (reset_password_sent_at user)
                    RESET_PASSWORD_TOKEN_EXPIRATION_DURATION_IN_MINUTES ;;
        if isTokenExpired then throw invalid_token
        else
          secure <- isPasswordSecure password ;;
          if negb secure then throw weak_password
          else
            hashedPassword <- hashPassword password ;;
            update (id user) [Encrypted_password hashedPassword;
                              Reset_password_token None;
                              Reset_password_sent_at JNull]
    end.

Definition updatePersonalInformations (userId : Z)
           (given_name' family_name' phone_number' job' : jsvalue)
  : M (option User) :=
  if negb (isString given_name') || negb (isString family_name')
     || negb (isString job')
  then throw invalid_personal_informations
  else
    valid <- isPhoneNumberValid phone_number' ;;
    if negb valid then throw invalid_personal_informations
    else update userId [Given_name given_name';
                        Family_name family_name';
                        Phone_number phone_number';
                        Job job'].

(** ** managers/organization/official-contact-email-verification *)

Definition OFFICIAL_CONTACT_EMAIL_VERIFICATION_TOKEN_EXPIRATION_DURATION_IN_MINUTES
  : Z := 60.

(** Modelled from the spec: [services/is-expired] is not among the sources;
    the spec has one expiration predicate, used identically across all
    flows, so it is the predicate of the user manager. *)
Definition isExpired_service : jsvalue -> Z -> M bool := isExpired.

Record CodeSent : Type := mkCodeSent {
  codeSent : bool;
  contactEmail : string;
  libelle : option string
}.

Definition nullable (o : option string) : jsvalue :=
  match o with
  | Some s => JString s
  | None => JNull
  end.

Definition sendOfficialContactEmailVerificationEmail
           (user_id organization_id : Z) (checkBeforeSend : bool)
  : M CodeSent :=
  organizationUsers <- getUsers organization_id ;;
  let user := find (fun m => m_id m =? user_id) organizationUsers in
  organization <- findOrganizationById organization_id ;;
  match user, organization with
  | Some user, Some organization =>
      if negb (needs_official_contact_email_verification user)
      then throw OfficialContactEmailVerificationNotNeededError
      else
        let libelle' := cached_libelle organization in
        contactEmail' <-
          try_catch
            (getContactEmail (cached_code_officiel_geographique organization))
            (fun _ => throw ApiAnnuaireError) ;;
        skip <- (if checkBeforeSend
                 then expired <-
                        isExpired_service
                          (official_contact_email_verification_sent_at user)
                          OFFICIAL_CONTACT_EMAIL_VERIFICATION_TOKEN_EXPIRATION_DURATION_IN_MINUTES ;;
                      ret (negb expired)
                 else ret false) ;;
        if skip then ret (mkCodeSent false contactEmail' libelle')
        else
          token <- generateDicewarePassword ;;
          now <- new_Date ;;
          updateUserOrganizationLink organization_id user_id
            [Official_contact_email_verification_token (Some token);
             Official_contact_email_verification_sent_at (JDate now)] ;;;
          sendMail {| to := [contactEmail'];
                      subject :=
                        "[MonComptePro] Authentifier un email sur MonComptePro";
                      template := "official-contact-email-verification";
                      params :=
                        [("given_name", m_given_name user);
                         ("family_name", m_family_name user);
                         ("email", JString (m_email user));
                         ("libelle", nullable libelle');
                         ("official_contact_email_verification_token",
                          JString token)] |} ;;;
          ret (mkCodeSent true contactEmail' libelle')
  | _, _ => throw NotFoundError
  end.

Definition verifyOfficialContactEmailToken
           (user_id organization_id : Z) (token : string)
  : M (option Member) :=
  organizationUsers <- getUsers organization_id ;;
  let user := find (fun m => m_id m =? user_id) organizationUsers in
  organization <- findOrganizationById organization_id ;;
  match user, organization with
  | Some user, Some organization =>
      if negb (option_string_eqb
                 (official_contact_email_verification_token user)
                 (Some token))
      then throw InvalidTokenError
      else
        isTokenExpired <-
          isExpired_service
            (official_contact_email_verification_sent_at user)
            OFFICIAL_CONTACT_EMAIL_VERIFICATION_TOKEN_EXPIRATION_DURATION_IN_MINUTES ;;
        if isTokenExpired then throw InvalidTokenError
        else
          updateUserOrganizationLink organization_id user_id
            [Needs_official_contact_email_verification false;
             Official_contact_email_verification_token None;
             Official_contact_email_verification_sent_at JNull]
  | _, _ => throw NotFoundError
  end.

(** ** Sequences of calls *)

(** One call of an exported flow, with its arguments. *)
Inductive Call : Type :=
| CallStartLogin (email' : string)
| CallLogin (email' password : string)
| CallSignup (email' password : string)
| CallSendEmailAddressVerificationEmail (email' : string)
                                        (checkBeforeSend : bool)
| CallVerifyEmail (token : option string)
| CallSendSendMagicLinkEmail (email' : string)
| CallLoginWithMagicLink (token : option string)
| CallSendResetPasswordEmail (email' : string)
| CallChangePassword (token : option string) (password : string)
| CallUpdatePersonalInformations
    (userId : Z) (given_name' family_name' phone_number' job' : jsvalue)
| CallSendOfficialContactEmailVerificationEmail
    (user_id organization_id : Z) (checkBeforeSend : bool)
| CallVerifyOfficialContactEmailToken
    (user_id organization_id : Z) (token : string).

(** What a call leaves behind, whatever it returned or threw. *)
Definition forget {A : Type} (m : M A) : M unit :=
  fun w => match m w with mkRun _ w1 t1 => mkRun (Ok tt) w1 t1 end.

Definition perform (c : Call) : M unit :=
  match c with
  | CallStartLogin e => forget (startLogin e)
  | CallLogin e p => forget (login e p)
  | CallSignup e p => forget (signup e p)
  | CallSendEmailAddressVerificationEmail e c =>
      forget (sendEmailAddressVerificationEmail e c)
  | CallVerifyEmail t => forget (verifyEmail t)
  | CallSendSendMagicLinkEmail e => forget (sendSendMagicLinkEmail e)
  | CallLoginWithMagicLink t => forget (loginWithMagicLink t)
  | CallSendResetPasswordEmail e => forget (sendResetPasswordEmail e)
  | CallChangePassword t p => forget (changePassword t p)
  | CallUpdatePersonalInformations i g f ph j =>
      forget (updatePersonalInformations i g f ph j)
  | CallSendOfficialContactEmailVerificationEmail u o c =>
      forget (sendOfficialContactEmailVerificationEmail u o c)
  | CallVerifyOfficialContactEmailToken u o t =>
      forget (verifyOfficialContactEmailToken u o t)
  end.

Fixpoint perform_all (cs : list Call) : M unit :=
  match cs with
  | [] => ret tt
  | c :: cs' => perform c ;;; perform_all cs'
  end.

End Flows.

(** ** Predicates of the properties *)

(** Nothing of the store changed; only the clock may have been read. *)
Definition same_store (w w' : World) : Prop :=
  users w' = users w /\ members w' = members w
  /\ organizations w' = organizations w
  /\ next_id w' = next_id w /\ draws w' = draws w.

(** The flow threw [e] and left everything as it was: no write, no mail. *)
Definition rejected {A : Type} (r : Run A) (w : World) (e : error) : Prop :=
  res r = Throw e /\ writes (trace r) = [] /\ mails (trace r) = []
  /\ same_store w (final r).

(** A token and its issuance timestamp are null together. *)
Definition paired (token : option string) (sent_at : jsvalue) : Prop :=
  token = None <-> sent_at = JNull.

Definition user_paired (u : User) : Prop :=
  forall s : Slot, paired (token_of s u) (sent_at_of s u).

Definition member_paired (m : Member) : Prop :=
  paired (official_contact_email_verification_token m)
         (official_contact_email_verification_sent_at m).

Definition store_paired (w : World) : Prop :=
  Forall user_paired (users w) /\ Forall member_paired (members w).

Definition slot_eqb (a b : Slot) : bool :=
  match a, b with
  | VerifyEmail, VerifyEmail | MagicLink, MagicLink
  | ResetPassword, ResetPassword => true
  | _, _ => false
  end.

(** The value an object literal gives to the token of slot [s], if it has
    that key (the last entry wins). *)
Fixpoint assigned_token (s : Slot) (fields : list Assignment)
  : option (option string) :=
  match fields with
  | [] => None
  | a :: fields' =>
      match assigned_token s fields' with
      | Some v => Some v
      | None =>
          match a with
          | Token s' v => if slot_eqb s s' then Some v else None
          | _ => None
          end
      end
  end.

Fixpoint assigned_sent_at (s : Slot) (fields : list Assignment)
  : option jsvalue :=
  match fields with
  | [] => None
  | a :: fields' =>
      match assigned_sent_at s fields' with
      | Some v => Some v
      | None =>
          match a with
          | Sent_at s' v => if slot_eqb s s' then Some v else None
          | _ => None
          end
      end
  end.

Fixpoint assigned_link_token (fields : list LinkAssignment)
  : option (option string) :=
  match fields with
  | [] => None
  | a :: fields' =>
      match assigned_link_token fields' with
      | Some v => Some v
      | None =>
          match a with
          | Official_contact_email_verification_token v => Some v
          | _ => None
          end
      end
  end.

Fixpoint assigned_link_sent_at (fields : list LinkAssignment)
  : option jsvalue :=
  match fields with
  | [] => None
  | a :: fields' =>
      match assigned_link_sent_at fields' with
      | Some v => Some v
      | None =>
          match a with
          | Official_contact_email_verification_sent_at v => Some v
          | _ => None
          end
      end
  end.

(** A write treats a pair as a whole: it leaves both keys out, or sets both
    to null, or sets the token to a string and the timestamp to an
    instant. *)
Definition written_together (token : option (option string))
           (sent_at : option jsvalue) : bool :=
  match token, sent_at with
  | None, None => true
  | Some None, Some JNull => true
  | Some (Some _), Some (JIsoString _ | JDate _) => true
  | _, _ => false
  end.

Definition patch_paired (fields : list Assignment) : Prop :=
  forall s : Slot,
    written_together (assigned_token s fields) (assigned_sent_at s fields)
    = true.

Definition link_patch_paired (fields : list LinkAssignment) : Prop :=
  written_together (assigned_link_token fields)
                   (assigned_link_sent_at fields) = true.

Definition event_paired (e : Event) : Prop :=
  match e with
  | EvUpdate _ fields => patch_paired fields
  | EvUpdateUserOrganizationLink _ _ fields => link_patch_paired fields
  | _ => True
  end.

(** The computation [m] writes every pair as a whole and keeps the stored
    pairs null together. *)
Definition keeps {A : Type} (m : M A) : Prop :=
  forall w,
    Forall event_paired (trace (m w))
    /\ (store_paired w -> store_paired (final (m w))).

(** The stored pair of slot [s] of account [i] is null. *)
Definition slot_cleared (s : Slot) (i : Z) (w : World) : Prop :=
  forall u, In u (users w) -> id u = i ->
            token_of s u = None /\ sent_at_of s u = JNull.

(** The stored pair of slot [s] of account [i] is [token], issued at [ms]. *)
Definition slot_holds (s : Slot) (i : Z) (token : string) (ms : Z)
           (w : World) : Prop :=
  forall u, In u (users w) -> id u = i ->
            token_of s u = Some token /\ sent_at_of s u = JDate ms.

Definition link_cleared (organization_id user_id : Z) (w : World) : Prop :=
  forall m, In m (members w) -> is_link organization_id user_id m = true ->
            official_contact_email_verification_token m = None
            /\ official_contact_email_verification_sent_at m = JNull.

Definition link_holds (organization_id user_id : Z) (token : string)
           (ms : Z) (w : World) : Prop :=
  forall m, In m (members w) -> is_link organization_id user_id m = true ->
            official_contact_email_verification_token m = Some token
            /\ official_contact_email_verification_sent_at m = JDate ms.

(** What a consume flow does with a record it has matched, whose token was
    issued at [sent_at] and lives [d] minutes.  With the window elapsed it
    throws [e] and writes nothing.  Within the window, and when the flow's
    further check [accepts], it returns a value after one single write,
    [write], that leaves the stored pair [cleared].  It returns a value in no
    other case. *)
Definition consumed (svc : Services) {A : Type} (r : Run A) (w : World)
           (sent_at : jsvalue) (d : Z) (e : error) (accepts : bool)
           (write : Event) (cleared : World -> Prop) : Prop :=
  (res (isExpired svc sent_at d w) = Ok true -> rejected r w e)
  /\ (res (isExpired svc sent_at d w) = Ok false -> accepts = true ->
      (exists v, res r = Ok v) /\ writes (trace r) = [write]
      /\ mails (trace r) = [] /\ cleared (final r))
  /\ (forall v, res r = Ok v ->
      res (isExpired svc sent_at d w) = Ok false /\ accepts = true).

(** The reading of the clock a flow took last. *)
Definition last_reading (svc : Services) (w : World) : Z :=
  svc_clock svc (Nat.pred (reads w)).

(** ** Calls that keep their outcome *)

(** The outcome of a flow without its value: it returned, or it threw. *)
Definition void {A : Type} (m : M A) : M unit :=
  fun w =>
    match m w with
    | mkRun (Ok _) w1 t1 => mkRun (Ok tt) w1 t1
    | mkRun (Throw e) w1 t1 => mkRun (Throw e) w1 t1
    end.

Definition invoke (svc : Services) (c : Call) : M unit :=
  match c with
  | CallStartLogin e => void (startLogin svc e)
  | CallLogin e p => void (login svc e p)
  | CallSignup e p => void (signup svc e p)
  | CallSendEmailAddressVerificationEmail e c =>
      void (sendEmailAddressVerificationEmail svc e c)
  | CallVerifyEmail t => void (verifyEmail svc t)
  | CallSendSendMagicLinkEmail e => void (sendSendMagicLinkEmail svc e)
  | CallLoginWithMagicLink t => void (loginWithMagicLink svc t)
  | CallSendResetPasswordEmail e => void (sendResetPasswordEmail svc e)
  | CallChangePassword t p => void (changePassword svc t p)
  | CallUpdatePersonalInformations i g f ph j =>
      void (updatePersonalInformations svc i g f ph j)
  | CallSendOfficialContactEmailVerificationEmail u o c =>
      void (sendOfficialContactEmailVerificationEmail svc u o c)
  | CallVerifyOfficialContactEmailToken u o t =>
      void (verifyOfficialContactEmailToken svc u o t)
  end.


(** ** The columns a call may write *)

Inductive Column : Type :=
| ColId
| ColEmail
| ColEncryptedPassword
| ColEmailVerified
| ColSignInCount
| ColLastSignInAt
| ColToken (s : Slot)
| ColSentAt (s : Slot)
| ColGivenName
| ColFamilyName
| ColPhoneNumber
| ColJob.

(** The two rows agree on column [c]. *)
Definition same_column (c : Column) (u u' : User) : Prop :=
  match c with
  | ColId => id u' = id u
  | ColEmail => email u' = email u
  | ColEncryptedPassword => encrypted_password u' = encrypted_password u
  | ColEmailVerified => email_verified u' = email_verified u
  | ColSignInCount => sign_in_count u' = sign_in_count u
  | ColLastSignInAt => last_sign_in_at u' = last_sign_in_at u
  | ColToken s => token_of s u' = token_of s u
  | ColSentAt s => sent_at_of s u' = sent_at_of s u
  | ColGivenName => given_name u' = given_name u
  | ColFamilyName => family_name u' = family_name u
  | ColPhoneNumber => phone_number u' = phone_number u
  | ColJob => job u' = job u
  end.

Definition column_of (a : Assignment) : Column :=
  match a with
  | Email_verified _ => ColEmailVerified
  | Sign_in_count _ => ColSignInCount
  | Last_sign_in_at _ => ColLastSignInAt
  | Encrypted_password _ => ColEncryptedPassword
  | Token s _ => ColToken s
  | Sent_at s _ => ColSentAt s
  | Given_name _ => ColGivenName
  | Family_name _ => ColFamilyName
  | Phone_number _ => ColPhoneNumber
  | Job _ => ColJob
  end.

(** The keys of the object literals each flow hands to [update]. *)
Definition footprint (c : Call) : list Column :=
  match c with
  | CallStartLogin _ => []
  | CallLogin _ _ => [ColSignInCount; ColLastSignInAt]
  | CallSignup _ _ => []
  | CallSendEmailAddressVerificationEmail _ _ =>
      [ColToken VerifyEmail; ColSentAt VerifyEmail]
  | CallVerifyEmail _ =>
      [ColEmailVerified; ColToken VerifyEmail; ColSentAt VerifyEmail]
  | CallSendSendMagicLinkEmail _ =>
      [ColToken MagicLink; ColSentAt MagicLink]
  | CallLoginWithMagicLink _ =>
      [ColEmailVerified; ColToken MagicLink; ColSentAt MagicLink]
  | CallSendResetPasswordEmail _ =>
      [ColToken ResetPassword; ColSentAt ResetPassword]
  | CallChangePassword _ _ =>
      [ColEncryptedPassword; ColToken ResetPassword; ColSentAt ResetPassword]
  | CallUpdatePersonalInformations _ _ _ _ _ =>
      [ColGivenName; ColFamilyName; ColPhoneNumber; ColJob]
  | CallSendOfficialContactEmailVerificationEmail _ _ _ => []
  | CallVerifyOfficialContactEmailToken _ _ _ => []
  end.

(** The two rows agree on every column that is not among [cols]. *)
Definition outside (cols : list Column) (u u' : User) : Prop :=
  forall c, ~ In c cols -> same_column c u u'.

(** The addresses of the accounts a trace creates, in order. *)
Fixpoint created (t : list Event) : list string :=
  match t with
  | [] => []
  | EvCreate e _ :: t' => e :: created t'
  | _ :: t' => created t'
  end.

(** From [w] to [w'], along the trace [t]: every account of [w] is still
    there, at its place, with its address, related by [R] to what it was,
    and the accounts that follow them are those the trace created. *)
Definition rows_evolve (R : User -> User -> Prop) (t : list Event)
           (w w' : World) : Prop :=
  exists kept added,
    users w' = kept ++ added
    /\ Forall2 (fun u u' => email u' = email u /\ R u u') (users w) kept
    /\ map email added = created t.

Definition advances (R : User -> User -> Prop) {A : Type} (m : M A) : Prop :=
  forall w, rows_evolve R (trace (m w)) w (final (m w)).

(** An assignment a flow may make: the column is one of the call's, and it
    does not take a verification back. *)
Definition may_assign (c : Call) (a : Assignment) : Prop :=
  In (column_of a) (footprint c) /\ a <> Email_verified false.

(** The token [token] of slot [s] is held by the rows of one id at most. *)
Definition held_by_one (s : Slot) (token : option string) (w : World)
  : Prop :=
  forall u u', In u (users w) -> In u' (users w) ->
               token_of s u = token -> token_of s u' = token ->
               id u = id u'.

(** What may become of a membership row: it keeps its organization, its
    user and the user's address, and its need for verification is not
    raised again. *)
Definition link_settles (m m' : Member) : Prop :=
  m_organization_id m' = m_organization_id m
  /\ m_id m' = m_id m
  /\ m_email m' = m_email m
  /\ (needs_official_contact_email_verification m' = true ->
      needs_official_contact_email_verification m = true).

(** ** Tokens as the store holds them *)

(** The account that holds [token] in slot [s]: the first row of the store
    whose stored token of that kind is the given one. *)
Definition first_holder (s : Slot) (token : option string) (us : list User)
  : option User :=
  find (fun u => option_string_eqb (token_of s u) token) us.

(** ** Mails and the tokens they carry *)

Definition ends_with (s t : string) : Prop :=
  exists prefix, s = String.append prefix t.

(** The mail has a parameter that is a string ending with [t]: the code
    itself, or a link whose last query value it is. *)
Definition carries (m : Mail) (t : string) : Prop :=
  exists key s, In (key, JString s) (params m) /\ ends_with s t.

(** The call is an update whose object literal gives a token key the
    value [t]. *)
Definition stores_token (e : Event) (t : string) : Prop :=
  match e with
  | EvUpdate _ fields => exists s, assigned_token s fields = Some (Some t)
  | EvUpdateUserOrganizationLink _ _ fields =>
      assigned_link_token fields = Some (Some t)
  | _ => False
  end.

(** ** A small store to run the flows on *)

Module Demo.

Definition services : Services :=
  {| svc_clock := fun n => 10000000 + Z.of_nat n;
     svc_pin_token := fun n => match n with O => "482913" | _ => "730561" end;
     svc_token := fun n => match n with O => "tok-a" | _ => "tok-b" end;
     svc_diceware_password :=
       fun n => match n with O => "brume-cactus" | _ => "lampe-ruche" end;
     svc_hashPassword := fun p => String.append "hash:" p;
     svc_validatePassword :=
       fun p h => option_string_eqb h (Some (String.append "hash:" p));
     svc_isPasswordSecure := fun p => Nat.leb 10 (String.length p);
     svc_isPhoneNumberValid := isString;
     svc_isEmailSafeToSendTransactional := fun _ => true;
     svc_getContactEmail :=
       fun code => match code with
                   | Some _ => Some "mairie@commune.example"
                   | None => None
                   end;
     svc_API_AUTH_HOST := "https://auth.example" |}.

(** Verified, with a reset-password token issued five minutes ago. *)
Definition alice : User :=
  mkUser 1 "alice@example.org" (Some "hash:correct horse") true 3 JNull
         None JNull None JNull
         (Some "reset-abc") (JDate (10000000 - 5 * 60000))
         (JString "Alice") (JString "A") (JString "0102030405")
         (JString "maire").

(** Unverified, with a verification code issued sixty-one minutes ago. *)
Definition bob : User :=
  mkUser 2 "bob@example.org" (Some "hash:hunter2") false 0 JNull
         (Some "111111") (JDate (10000000 - 61 * 60000)) None JNull
         None JNull JNull JNull JNull JNull.

(** Unverified, with a verification code issued one minute ago and a
    magic link issued two minutes ago. *)
Definition carol : User :=
  mkUser 3 "carol@example.org" None false 0 JNull
         (Some "222222") (JDate (10000000 - 60000))
         (Some "magic-xyz") (JDate (10000000 - 2 * 60000))
         None JNull JNull JNull JNull JNull.

Definition alice_member : Member :=
  mkMember 10 1 "alice@example.org" (JString "Alice") (JString "A")
           true (Some "brume-cactus") (JDate (10000000 - 60000)).

Definition bob_member : Member :=
  mkMember 10 2 "bob@example.org" JNull JNull false None JNull.

Definition commune : Organization :=
  mkOrganization 10 (Some "75056") (Some "Commune de Paris").

Definition world : World :=
  mkWorld [alice; bob; carol] [alice_member; bob_member] [commune] 4 0 0.

End Demo.

(** ** Running a flow *)

Lemma isExpired_run :
  forall svc t d w,
    isExpired svc t d w =
    match t with
    | JDate emitted =>
        mkRun (Ok (svc_clock svc (reads w) - emitted >? d * 60000)) (tick w) []
    | _ => mkRun (Ok true) w []
    end.
Proof. intros svc [] d w; reflexivity. Qed.

Lemma isExpired_returns :
  forall svc t d w, exists b, res (isExpired svc t d w) = Ok b.
Proof.
  intros svc t d w. rewrite isExpired_run.
  destruct t; cbn [res]; eauto.
Qed.

Lemma isExpired_same_store :
  forall svc t d w, same_store w (final (isExpired svc t d w)).
Proof.
  intros svc t d w. rewrite isExpired_run.
  destruct t; repeat split; reflexivity.
Qed.

Lemma isExpired_trace :
  forall svc t d w, trace (isExpired svc t d w) = [].
Proof. intros svc t d w. rewrite isExpired_run. destruct t; reflexivity. Qed.

Lemma isExpired_outcome :
  forall svc t d w b,
    res (isExpired svc t d w) = Ok b ->
    isExpired svc t d w = mkRun (Ok b) (final (isExpired svc t d w)) [].
Proof.
  intros svc t d w b H. rewrite isExpired_run in *.
  destruct t; cbn [res final] in *; congruence.
Qed.

Lemma same_store_refl : forall w, same_store w w.
Proof. intro w. repeat split; reflexivity. Qed.

Lemma same_store_tick : forall w, same_store w (tick w).
Proof. intro w. repeat split; reflexivity. Qed.

Create HintDb flows.

#[local] Hint Resolve same_store_refl same_store_tick isExpired_same_store
  : flows.

(** Unfolds a flow down to the store. *)
Ltac run_flow :=
  unfold startLogin, login, signup, sendEmailAddressVerificationEmail,
    verifyEmail, sendSendMagicLinkEmail, loginWithMagicLink,
    sendResetPasswordEmail, changePassword, updatePersonalInformations,
    sendOfficialContactEmailVerificationEmail,
    verifyOfficialContactEmailToken, isExpired_service;
  unfold bind, try_catch, findByEmail, findByVerifyEmailToken,
    findByMagicLinkToken, findByResetPasswordToken, create, update,
    getUsers, findOrganizationById, updateUserOrganizationLink,
    getContactEmail, isEmailSafeToSendTransactional, sendMail,
    generatePinToken, generateToken, generateDicewarePassword, hashPassword,
    validatePassword, isPasswordSecure, isPhoneNumberValid, new_Date, emit,
    defined, ret, throw;
  cbn [res final trace app isEmpty negb].

(** ** The expiration predicate *)

(** C4. For every duration [d] in minutes and every value [t] handed as the
    emission date, [isExpired t d] returns true when [t] is not a [Date];
    when it is one, it returns true exactly when the clock reading minus the
    date's time strictly exceeds [d] minutes in milliseconds.  It calls no
    collaborator and leaves the store as it is: it only reads the clock. *)
Theorem isExpired_contract :
  forall (svc : Services) (t : jsvalue) (d : Z) (w : World),
    let r := isExpired svc t d w in
    trace r = [] /\ same_store w (final r) /\
    match t with
    | JDate emitted =>
        let now := svc_clock svc (reads w) in
        (res r = Ok true <-> d * 60000 < now - emitted)
        /\ (res r = Ok false <-> now - emitted <= d * 60000)
    | _ => res r = Ok true /\ final r = w
    end.
Proof.
  intros svc t d w r. subst r.
  split; [apply isExpired_trace|].
  split; [apply isExpired_same_store|].
  rewrite isExpired_run.
  destruct t as [| | s | ms | emitted]; cbn [res final]; auto.
  destruct (Z.gtb_spec (svc_clock svc (reads w) - emitted) (d * 60000))
    as [Hgt | Hle].
  - split; split; intro H; try reflexivity; try lia; discriminate H.
  - split; split; intro H; try reflexivity; try lia; discriminate H.
Qed.

(** ** Password login and signup *)

Lemma in_update_rows :
  forall i fields us u,
    In u us ->
    In (if id u =? i then apply_patch fields u else u)
       (update_rows i fields us).
Proof.
  intros i fields us u Hin. unfold update_rows.
  apply (in_map (fun u => if id u =? i then apply_patch fields u else u)).
  exact Hin.
Qed.

Lemma user_by_email_In :
  forall e us u, user_by_email e us = Some u -> In u us.
Proof.
  intros e us u H. unfold user_by_email in H.
  apply find_some in H. tauto.
Qed.

Lemma login_unknown :
  forall svc email' password w,
    user_by_email email' (users w) = None ->
    login svc email' password w =
    mkRun (Throw invalid_credentials) w [EvFindByEmail email'].
Proof. intros svc email' password w H. run_flow. rewrite H. reflexivity. Qed.

Lemma login_wrong_password :
  forall svc email' password w user,
    user_by_email email' (users w) = Some user ->
    svc_validatePassword svc password (encrypted_password user) = false ->
    login svc email' password w =
    mkRun (Throw invalid_credentials) w
          [EvFindByEmail email';
           EvValidatePassword password (encrypted_password user)].
Proof.
  intros svc email' password w user H Hv. run_flow. rewrite H.
  cbn [res final trace app]. rewrite Hv. reflexivity.
Qed.

Lemma login_verified :
  forall svc email' password w user,
    user_by_email email' (users w) = Some user ->
    svc_validatePassword svc password (encrypted_password user) = true ->
    let fields := [Sign_in_count (sign_in_count user + 1);
                   Last_sign_in_at (JIsoString (svc_clock svc (reads w)))] in
    let us := update_rows (id user) fields (users w) in
    login svc email' password w =
    mkRun (Ok (user_by_id (id user) us)) (with_users us (tick w))
          [EvFindByEmail email';
           EvValidatePassword password (encrypted_password user);
           EvUpdate (id user) fields].
Proof.
  intros svc email' password w user H Hv. run_flow. rewrite H.
  cbn [res final trace app]. rewrite Hv. reflexivity.
Qed.

(** Closes a goal [rejected r w e] once [r] is a literal run. *)
Ltac rejects :=
  unfold rejected;
  cbn [res final trace writes mails filter is_write];
  split; [reflexivity | split; [reflexivity | split; [reflexivity |]]];
  auto with flows.

(** C5. [login email password] returns a value exactly when an account with
    that address exists and the password verifies against its stored hash;
    every failure is [invalid_credentials], for a missing account as for a
    wrong password, and then nothing is written.  On success the flow issues
    one update, which raises the sign-in count by one and sets the last
    sign-in time to the clock reading. *)
Theorem login_contract :
  forall (svc : Services) (email' password : string) (w : World),
    let r := login svc email' password w in
    let verifies user :=
      svc_validatePassword svc password (encrypted_password user) = true in
    ((exists v, res r = Ok v) <->
     (exists user,
         user_by_email email' (users w) = Some user /\ verifies user))
    /\ (forall e, res r = Throw e -> e = invalid_credentials)
    /\ (user_by_email email' (users w) = None ->
        rejected r w invalid_credentials)
    /\ (forall user,
           user_by_email email' (users w) = Some user ->
           ~ verifies user ->
           rejected r w invalid_credentials)
    /\ (forall user,
           user_by_email email' (users w) = Some user ->
           verifies user ->
           let now := svc_clock svc (reads w) in
           writes (trace r) =
             [EvUpdate (id user)
                       [Sign_in_count (sign_in_count user + 1);
                        Last_sign_in_at (JIsoString now)]]
           /\ exists user',
               In user' (users (final r)) /\ id user' = id user
               /\ sign_in_count user' = sign_in_count user + 1
               /\ last_sign_in_at user' = JDate now).
Proof.
  intros svc email' password w r verifies. subst r verifies. cbv beta.
  destruct (user_by_email email' (users w)) as [user|] eqn:Hfind.
  - destruct (svc_validatePassword svc password (encrypted_password user))
      eqn:Hval.
    + rewrite (login_verified _ _ _ _ _ Hfind Hval). cbn [res final trace].
      split; [|split; [|split; [|split]]].
      * split; intros _; [exists user; auto | eexists; reflexivity].
      * intros e He. discriminate He.
      * discriminate.
      * intros user0 Heq Hno. injection Heq as <-. contradiction.
      * intros user0 Heq _. injection Heq as <-.
        split; [reflexivity|].
        exists (apply_patch
                  [Sign_in_count (sign_in_count user + 1);
                   Last_sign_in_at (JIsoString (svc_clock svc (reads w)))]
                  user).
        split.
        -- apply user_by_email_In in Hfind.
           apply (in_update_rows (id user)
                    [Sign_in_count (sign_in_count user + 1);
                     Last_sign_in_at (JIsoString (svc_clock svc (reads w)))])
             in Hfind.
           rewrite Z.eqb_refl in Hfind. exact Hfind.
        -- destruct user; cbn. auto.
    + rewrite (login_wrong_password _ _ _ _ _ Hfind Hval).
      cbn [res final trace].
      split; [|split; [|split; [|split]]].
      * split; [intros [v Hv]; discriminate Hv|].
        intros [user0 [Heq Hv]]. injection Heq as <-. congruence.
      * intros e He. injection He as <-. reflexivity.
      * discriminate.
      * intros user0 _ _. rejects.
      * intros user0 Heq Hv. injection Heq as <-. congruence.
  - rewrite (login_unknown _ _ _ _ Hfind). cbn [res final trace].
    split; [|split; [|split; [|split]]].
    + split; [intros [v Hv]; discriminate Hv|].
      intros [user0 [Heq _]]. discriminate Heq.
    + intros e He. injection He as <-. reflexivity.
    + intros _. rejects.
    + discriminate.
    + discriminate.
Qed.

Lemma signup_taken :
  forall svc email' password w user,
    user_by_email email' (users w) = Some user ->
    signup svc email' password w =
    mkRun (Throw email_unavailable) w [EvFindByEmail email'].
Proof. intros svc email' password w user H. run_flow. rewrite H. reflexivity. Qed.

Lemma signup_weak :
  forall svc email' password w,
    user_by_email email' (users w) = None ->
    svc_isPasswordSecure svc password = false ->
    signup svc email' password w =
    mkRun (Throw weak_password) w
          [EvFindByEmail email'; EvIsPasswordSecure password].
Proof.
  intros svc email' password w H Hs. run_flow. rewrite H.
  cbn [res final trace app isEmpty negb]. rewrite Hs. reflexivity.
Qed.

Lemma signup_created :
  forall svc email' password w,
    user_by_email email' (users w) = None ->
    svc_isPasswordSecure svc password = true ->
    let hash := Some (svc_hashPassword svc password) in
    let u := new_user (next_id w) email' hash in
    signup svc email' password w =
    mkRun (Ok u) (with_new_user u w)
          [EvFindByEmail email'; EvIsPasswordSecure password;
           EvHashPassword password; EvCreate email' hash].
Proof.
  intros svc email' password w H Hs. run_flow. rewrite H.
  cbn [res final trace app isEmpty negb]. rewrite Hs. reflexivity.
Qed.

(** C9. [signup email password] throws [email_unavailable] when an account
    with that address exists, whatever the password, weak or not: the
    strength of the password is not even examined.  With a free address it
    throws [weak_password] when the password fails the strength check.  The
    account is created only when both checks pass, and then it is. *)
Theorem signup_contract :
  forall (svc : Services) (email' password : string) (w : World),
    let r := signup svc email' password w in
    (forall user,
        user_by_email email' (users w) = Some user ->
        rejected r w email_unavailable /\ trace r = [EvFindByEmail email'])
    /\ (user_by_email email' (users w) = None ->
        svc_isPasswordSecure svc password = false ->
        rejected r w weak_password)
    /\ (user_by_email email' (users w) = None ->
        svc_isPasswordSecure svc password = true ->
        let hash := Some (svc_hashPassword svc password) in
        let u := new_user (next_id w) email' hash in
        res r = Ok u /\ writes (trace r) = [EvCreate email' hash]
        /\ users (final r) = users w ++ [u])
    /\ (writes (trace r) <> [] ->
        user_by_email email' (users w) = None
        /\ svc_isPasswordSecure svc password = true).
Proof.
  intros svc email' password w r. subst r.
  destruct (user_by_email email' (users w)) as [user|] eqn:Hfind.
  - rewrite (signup_taken _ _ _ _ _ Hfind).
    split; [|split; [|split]]; try discriminate.
    + intros user0 _. split; [rejects | reflexivity].
    + cbn. intro H. contradiction H. reflexivity.
  - destruct (svc_isPasswordSecure svc password) eqn:Hsec.
    + rewrite (signup_created _ _ _ _ Hfind Hsec).
      split; [|split; [|split]]; try discriminate.
      * intros _ _. cbn. auto.
      * auto.
    + rewrite (signup_weak _ _ _ _ Hfind Hsec).
      split; [|split; [|split]]; try discriminate.
      * intros _ _. rejects.
      * cbn. intro H. contradiction H. reflexivity.
Qed.

(** ** Password reset *)

Lemma sendResetPasswordEmail_unknown :
  forall svc email' w,
    user_by_email email' (users w) = None ->
    sendResetPasswordEmail svc email' w =
    mkRun (Ok true) w [EvFindByEmail email'].
Proof. intros svc email' w H. run_flow. rewrite H. reflexivity. Qed.

(** C6. [sendResetPasswordEmail] returns [true] in every case and never
    throws; for an address that no account has, it sends no mail and writes
    nothing: its only call is the lookup, and the store is left as it was. *)
Theorem sendResetPasswordEmail_unknown_account :
  forall (svc : Services) (email' : string) (w : World),
    let r := sendResetPasswordEmail svc email' w in
    res r = Ok true
    /\ (user_by_email email' (users w) = None ->
        final r = w /\ trace r = [EvFindByEmail email']
        /\ mails (trace r) = [] /\ writes (trace r) = []).
Proof.
  intros svc email' w r. subst r.
  destruct (user_by_email email' (users w)) as [user|] eqn:Hfind.
  - split; [|discriminate].
    run_flow. rewrite Hfind. reflexivity.
  - rewrite (sendResetPasswordEmail_unknown _ _ _ Hfind).
    cbn. auto.
Qed.

(** ** Consuming a token *)

Lemma id_assign : forall a u, id (assign a u) = id u.
Proof. intros [] u; destruct u; try reflexivity; destruct s; reflexivity. Qed.

Lemma id_apply_patch : forall fields u, id (apply_patch fields u) = id u.
Proof.
  induction fields as [|a fields IH]; intro u; cbn [apply_patch].
  - reflexivity.
  - rewrite IH. apply id_assign.
Qed.

Lemma update_rows_inv :
  forall i fields us u,
    In u (update_rows i fields us) -> id u = i ->
    exists u0, In u0 us /\ id u0 = i /\ u = apply_patch fields u0.
Proof.
  intros i fields us u Hin Hid. unfold update_rows in Hin.
  apply in_map_iff in Hin. destruct Hin as [u0 [Heq Hin0]].
  destruct (id u0 =? i) eqn:Hi.
  - exists u0. apply Z.eqb_eq in Hi. auto.
  - subst u. apply Z.eqb_neq in Hi. contradiction.
Qed.

Lemma is_link_assign_link :
  forall o i a m, is_link o i (assign_link a m) = is_link o i m.
Proof. intros o i [] m; destruct m; reflexivity. Qed.

Lemma is_link_apply_link_patch :
  forall o i fields m, is_link o i (apply_link_patch fields m) = is_link o i m.
Proof.
  induction fields as [|a fields IH]; intro m; cbn [apply_link_patch].
  - reflexivity.
  - rewrite IH. apply is_link_assign_link.
Qed.

Lemma update_links_inv :
  forall o i fields ms m,
    In m (update_links o i fields ms) -> is_link o i m = true ->
    exists m0, In m0 ms /\ m = apply_link_patch fields m0.
Proof.
  intros o i fields ms m Hin Hl. unfold update_links in Hin.
  apply in_map_iff in Hin. destruct Hin as [m0 [Heq Hin0]].
  destruct (is_link o i m0) eqn:Hi.
  - exists m0. auto.
  - subst m. congruence.
Qed.

(** After the lookup: rewrites the outcome of the expiration check. *)
Ltac expiry He :=
  rewrite (isExpired_outcome _ _ _ _ _ He);
  cbn [res final trace app negb writes mails filter is_write].

Lemma slot_cleared_update :
  forall s i fields w,
    (forall u, token_of s (apply_patch fields u) = None
               /\ sent_at_of s (apply_patch fields u) = JNull) ->
    slot_cleared s i (with_users (update_rows i fields (users w)) w).
Proof.
  intros s i fields w H u Hin Hid. cbn [users with_users] in Hin.
  destruct (update_rows_inv _ _ _ _ Hin Hid) as [u0 [_ [_ ->]]]. apply H.
Qed.

Lemma verifyEmail_consumes :
  forall svc w token,
    let r := verifyEmail svc token w in
    match user_by_token VerifyEmail token (users w) with
    | None => rejected r w invalid_token
    | Some user =>
        consumed svc r w (verify_email_sent_at user)
                 VERIFY_EMAIL_TOKEN_EXPIRATION_DURATION_IN_MINUTES
                 invalid_token true
                 (EvUpdate (id user) [Email_verified true;
                                      Verify_email_token None;
                                      Verify_email_sent_at JNull])
                 (slot_cleared VerifyEmail (id user))
    end.
Proof.
  intros svc w token r. subst r.
  destruct (user_by_token VerifyEmail token (users w)) as [user|] eqn:Hfind.
  - assert (Hrun : forall b,
               res (isExpired svc (verify_email_sent_at user)
                      VERIFY_EMAIL_TOKEN_EXPIRATION_DURATION_IN_MINUTES w)
               = Ok b ->
               if b
               then rejected (verifyEmail svc token w) w invalid_token
               else (exists v, res (verifyEmail svc token w) = Ok v)
                    /\ writes (trace (verifyEmail svc token w)) =
                       [EvUpdate (id user) [Email_verified true;
                                            Verify_email_token None;
                                            Verify_email_sent_at JNull]]
                    /\ mails (trace (verifyEmail svc token w)) = []
                    /\ slot_cleared VerifyEmail (id user)
                         (final (verifyEmail svc token w))).
    { intros b He. run_flow. rewrite Hfind. cbn [res final trace app].
      expiry He. destruct b; cbn [res final trace app].
      - rejects.
      - split; [eexists; reflexivity|]. split; [reflexivity|].
        split; [reflexivity|].
        apply slot_cleared_update. intro u; destruct u; split; reflexivity. }
    unfold consumed. split; [|split].
    + intro He. exact (Hrun true He).
    + intros He _. exact (Hrun false He).
    + intros v Hv.
      destruct (isExpired_returns svc (verify_email_sent_at user)
                  VERIFY_EMAIL_TOKEN_EXPIRATION_DURATION_IN_MINUTES w)
        as [[|] Hb].
      * destruct (Hrun true Hb) as [Hthrow _]. congruence.
      * auto.
  - run_flow. rewrite Hfind. rejects.
Qed.

Lemma consumed_intro :
  forall svc (A : Type) (r : Run A) w sent_at d e (accepts : bool) write
         (cleared : World -> Prop),
    (forall b : bool, res (isExpired svc sent_at d w) = Ok b ->
               if b then rejected r w e
               else if accepts
                    then (exists v, res r = Ok v)
                         /\ writes (trace r) = [write]
                         /\ mails (trace r) = [] /\ cleared (final r)
                    else exists e', res r = Throw e') ->
    consumed svc r w sent_at d e accepts write cleared.
Proof.
  intros svc A r w sent_at d e accepts write cleared Hrun.
  unfold consumed. split; [|split].
  - intro He. exact (Hrun true He).
  - intros He Hacc. specialize (Hrun false He). cbv beta iota in Hrun.
    rewrite Hacc in Hrun. exact Hrun.
  - intros v Hv. destruct (isExpired_returns svc sent_at d w) as [[|] Hb].
    + destruct (Hrun true Hb) as [Hthrow _]. congruence.
    + specialize (Hrun false Hb). cbv beta iota in Hrun.
      destruct accepts; [auto|].
      destruct Hrun as [e' He']. congruence.
Qed.

Lemma loginWithMagicLink_consumes :
  forall svc w token,
    let r := loginWithMagicLink svc token w in
    if falsy token then rejected r w invalid_magic_link
    else
      match user_by_token MagicLink token (users w) with
      | None => rejected r w invalid_magic_link
      | Some user =>
          consumed svc r w (magic_link_sent_at user)
                   MAGIC_LINK_TOKEN_EXPIRATION_DURATION_IN_MINUTES
                   invalid_magic_link true
                   (EvUpdate (id user) [Email_verified true;
                                        Magic_link_token None;
                                        Magic_link_sent_at JNull])
                   (slot_cleared MagicLink (id user))
      end.
Proof.
  intros svc w token r. subst r.
  destruct (falsy token) eqn:Hfalsy.
  { run_flow. rewrite Hfalsy. rejects. }
  destruct (user_by_token MagicLink token (users w)) as [user|] eqn:Hfind.
  - apply consumed_intro. intros b He.
    run_flow. rewrite Hfalsy. cbn [res final trace app]. rewrite Hfind.
    cbn [res final trace app]. expiry He.
    destruct b; cbn [res final trace app].
    + rejects.
    + split; [eexists; reflexivity|]. split; [reflexivity|].
      split; [reflexivity|].
      apply slot_cleared_update. intro u; destruct u; split; reflexivity.
  - run_flow. rewrite Hfalsy. cbn [res final trace app]. rewrite Hfind.
    rejects.
Qed.

Lemma changePassword_consumes :
  forall svc w token password,
    let r := changePassword svc token password w in
    if falsy token then rejected r w invalid_token
    else
      match user_by_token ResetPassword token (users w) with
      | None => rejected r w invalid_token
      | Some user =>
          consumed svc r w (reset_password_sent_at user)
                   RESET_PASSWORD_TOKEN_EXPIRATION_DURATION_IN_MINUTES
                   invalid_token (svc_isPasswordSecure svc password)
                   (EvUpdate (id user)
                             [Encrypted_password
                                (svc_hashPassword svc password);
                              Reset_password_token None;
                              Reset_password_sent_at JNull])
                   (slot_cleared ResetPassword (id user))
      end.
Proof.
  intros svc w token password r. subst r.
  destruct (falsy token) eqn:Hfalsy.
  { run_flow. rewrite Hfalsy. rejects. }
  destruct (user_by_token ResetPassword token (users w)) as [user|] eqn:Hfind.
  - apply consumed_intro. intros b He.
    run_flow. rewrite Hfalsy. cbn [res final trace app]. rewrite Hfind.
    cbn [res final trace app]. expiry He.
    destruct b; cbn [res final trace app].
    + rejects.
    + destruct (svc_isPasswordSecure svc password);
        cbn [res final trace app negb writes mails filter is_write].
      * split; [eexists; reflexivity|]. split; [reflexivity|].
        split; [reflexivity|].
        apply slot_cleared_update. intro u; destruct u; split; reflexivity.
      * eexists; reflexivity.
  - run_flow. rewrite Hfalsy. cbn [res final trace app]. rewrite Hfind.
    rejects.
Qed.

Lemma link_cleared_update :
  forall o i fields w,
    (forall m,
        official_contact_email_verification_token
          (apply_link_patch fields m) = None
        /\ official_contact_email_verification_sent_at
             (apply_link_patch fields m) = JNull) ->
    link_cleared o i (with_members (update_links o i fields (members w)) w).
Proof.
  intros o i fields w H m Hin Hl. cbn [members with_members] in Hin.
  destruct (update_links_inv _ _ _ _ _ Hin Hl) as [m0 [_ ->]]. apply H.
Qed.

Lemma verifyOfficialContactEmailToken_consumes :
  forall svc w user_id organization_id token,
    let r :=
      verifyOfficialContactEmailToken svc user_id organization_id token w in
    match find (fun m => m_id m =? user_id)
               (users_of organization_id (members w)),
          organization_by_id organization_id (organizations w) with
    | Some user, Some _ =>
        if option_string_eqb
             (official_contact_email_verification_token user) (Some token)
        then
          consumed svc r w
            (official_contact_email_verification_sent_at user)
            OFFICIAL_CONTACT_EMAIL_VERIFICATION_TOKEN_EXPIRATION_DURATION_IN_MINUTES
            InvalidTokenError true
            (EvUpdateUserOrganizationLink organization_id user_id
               [Needs_official_contact_email_verification false;
                Official_contact_email_verification_token None;
                Official_contact_email_verification_sent_at JNull])
            (link_cleared organization_id user_id)
        else rejected r w InvalidTokenError
    | _, _ => rejected r w NotFoundError
    end.
Proof.
  intros svc w user_id organization_id token r. subst r.
  destruct (find (fun m => m_id m =? user_id)
                 (users_of organization_id (members w)))
    as [user|] eqn:Huser;
    destruct (organization_by_id organization_id (organizations w))
      as [organization|] eqn:Horg;
    try (run_flow; rewrite ?Huser, ?Horg; rejects).
  destruct (option_string_eqb
              (official_contact_email_verification_token user) (Some token))
    eqn:Htok.
  - apply consumed_intro. intros b He.
    run_flow. rewrite Huser, Horg. cbn [res final trace app].
    rewrite Htok. cbn [res final trace app negb]. expiry He.
    destruct b; cbn [res final trace app].
    + rejects.
    + split; [eexists; reflexivity|]. split; [reflexivity|].
      split; [reflexivity|].
      apply link_cleared_update. intro m; destruct m; split; reflexivity.
  - run_flow. rewrite Huser, Horg. cbn [res final trace app].
    rewrite Htok. rejects.
Qed.

Lemma option_string_eqb_eq :
  forall a b, option_string_eqb a b = true <-> a = b.
Proof.
  intros [x|] [y|]; cbn [option_string_eqb]; split; intro H;
    try reflexivity; try discriminate H.
  - apply String.eqb_eq in H. congruence.
  - injection H as ->. apply String.eqb_refl.
Qed.

Lemma user_by_token_first_holder :
  forall s token us,
    falsy token = false -> user_by_token s token us = first_holder s token us.
Proof.
  intros s token us H. unfold user_by_token, first_holder.
  rewrite H. reflexivity.
Qed.

Lemma first_holder_some :
  forall s token us user,
    first_holder s token us = Some user ->
    In user us /\ token_of s user = token.
Proof.
  intros s token us user H. apply find_some in H. destruct H as [Hin Heq].
  split; [exact Hin | apply option_string_eqb_eq; exact Heq].
Qed.

Lemma first_holder_none :
  forall s token us,
    first_holder s token us = None <->
    (forall u, In u us -> token_of s u <> token).
Proof.
  intros s token us. split.
  - intros H u Hin Heq.
    pose proof (find_none _ _ H u Hin) as Hf. cbv beta in Hf.
    apply option_string_eqb_eq in Heq. congruence.
  - intro H. destruct (first_holder s token us) as [u|] eqn:Hf; [|reflexivity].
    destruct (first_holder_some _ _ _ _ Hf) as [Hin Heq].
    exfalso. exact (H u Hin Heq).
Qed.

(** C1, amended. In each consume flow a token that does not match any
    stored value (no record holds it) and a token that matches a record
    whose window has elapsed are rejected with one and the same error of
    that flow ([invalid_token], [invalid_magic_link], [invalid_token],
    [InvalidTokenError]), and nothing is written.  The flow returns a value
    only for a token that matches a record within its window; it then makes
    one single write, which carries the flow's mutation together with the
    token and its timestamp both set to null.  For [changePassword] this
    also needs the new password to be secure.  For [verifyEmail] the
    statement is about non-empty tokens: the empty one is left out of it.
    [verifyOfficialContactEmailToken] compares the token with the one
    stored for the member, and does so only when the member and the
    organization are found: otherwise it throws [NotFoundError], whatever
    the token. *)
Theorem consume_token_contract :
  forall (svc : Services) (w : World),
    (forall s token,
        (first_holder s token (users w) = None <->
         forall u, In u (users w) -> token_of s u <> token)
        /\ forall user,
            first_holder s token (users w) = Some user ->
            In user (users w) /\ token_of s user = token)
    /\ (forall token,
           falsy token = false ->
           let r := verifyEmail svc token w in
           match first_holder VerifyEmail token (users w) with
           | None => rejected r w invalid_token
           | Some user =>
               consumed svc r w (verify_email_sent_at user)
                        VERIFY_EMAIL_TOKEN_EXPIRATION_DURATION_IN_MINUTES
                        invalid_token true
                        (EvUpdate (id user) [Email_verified true;
                                             Verify_email_token None;
                                             Verify_email_sent_at JNull])
                        (slot_cleared VerifyEmail (id user))
           end)
    /\ (forall token,
           let r := loginWithMagicLink svc token w in
           if falsy token then rejected r w invalid_magic_link
           else
             match first_holder MagicLink token (users w) with
             | None => rejected r w invalid_magic_link
             | Some user =>
                 consumed svc r w (magic_link_sent_at user)
                          MAGIC_LINK_TOKEN_EXPIRATION_DURATION_IN_MINUTES
                          invalid_magic_link true
                          (EvUpdate (id user) [Email_verified true;
                                               Magic_link_token None;
                                               Magic_link_sent_at JNull])
                          (slot_cleared MagicLink (id user))
             end)
    /\ (forall token password,
           let r := changePassword svc token password w in
           if falsy token then rejected r w invalid_token
           else
             match first_holder ResetPassword token (users w) with
             | None => rejected r w invalid_token
             | Some user =>
                 consumed svc r w (reset_password_sent_at user)
                          RESET_PASSWORD_TOKEN_EXPIRATION_DURATION_IN_MINUTES
                          invalid_token (svc_isPasswordSecure svc password)
                          (EvUpdate (id user)
                                    [Encrypted_password
                                       (svc_hashPassword svc password);
                                     Reset_password_token None;
                                     Reset_password_sent_at JNull])
                          (slot_cleared ResetPassword (id user))
             end)
    /\ (forall user_id organization_id token,
           let r :=
             verifyOfficialContactEmailToken svc user_id organization_id
                                             token w in
           match find (fun m => m_id m =? user_id)
                      (users_of organization_id (members w)),
                 organization_by_id organization_id (organizations w) with
           | Some user, Some _ =>
               if option_string_eqb
                    (official_contact_email_verification_token user)
                    (Some token)
               then
                 consumed svc r w
                   (official_contact_email_verification_sent_at user)
                   OFFICIAL_CONTACT_EMAIL_VERIFICATION_TOKEN_EXPIRATION_DURATION_IN_MINUTES
                   InvalidTokenError true
                   (EvUpdateUserOrganizationLink organization_id user_id
                      [Needs_official_contact_email_verification false;
                       Official_contact_email_verification_token None;
                       Official_contact_email_verification_sent_at JNull])
                   (link_cleared organization_id user_id)
               else rejected r w InvalidTokenError
           | _, _ => rejected r w NotFoundError
           end).
Proof.
  intros svc w. split; [|split; [|split; [|split]]].
  - intros s token. split; [apply first_holder_none|].
    intro user. apply first_holder_some.
  - intros token Hfalsy.
    generalize (verifyEmail_consumes svc w token). cbv zeta.
    rewrite (user_by_token_first_holder _ _ _ Hfalsy). exact (fun H => H).
  - intro token.
    generalize (loginWithMagicLink_consumes svc w token). cbv zeta.
    destruct (falsy token) eqn:Hfalsy; [exact (fun H => H)|].
    rewrite (user_by_token_first_holder _ _ _ Hfalsy). exact (fun H => H).
  - intros token password.
    generalize (changePassword_consumes svc w token password). cbv zeta.
    destruct (falsy token) eqn:Hfalsy; [exact (fun H => H)|].
    rewrite (user_by_token_first_holder _ _ _ Hfalsy). exact (fun H => H).
  - intros user_id organization_id token.
    apply verifyOfficialContactEmailToken_consumes.
Qed.

Lemma changePassword_run :
  forall svc token password w,
    changePassword svc token password w =
    if falsy token then mkRun (Throw invalid_token) w []
    else
      let looked := EvFindByResetPasswordToken token in
      match user_by_token ResetPassword token (users w) with
      | None => mkRun (Throw invalid_token) w [looked]
      | Some user =>
          let x := isExpired svc (reset_password_sent_at user)
                     RESET_PASSWORD_TOKEN_EXPIRATION_DURATION_IN_MINUTES w in
          match res x with
          | Ok true => mkRun (Throw invalid_token) (final x) [looked]
          | Ok false =>
              if svc_isPasswordSecure svc password
              then
                let fields := [Encrypted_password
                                 (svc_hashPassword svc password);
                               Reset_password_token None;
                               Reset_password_sent_at JNull] in
                let us := update_rows (id user) fields (users (final x)) in
                mkRun (Ok (user_by_id (id user) us))
                      (with_users us (final x))
                      [looked; EvIsPasswordSecure password;
                       EvHashPassword password; EvUpdate (id user) fields]
              else mkRun (Throw weak_password) (final x)
                         [looked; EvIsPasswordSecure password]
          | Throw e => mkRun (Throw e) (final x) [looked]
          end
      end.
Proof.
  intros svc token password w. run_flow.
  destruct (falsy token); [reflexivity|]. cbn [res final trace app].
  destruct (user_by_token ResetPassword token (users w)) as [user|];
    [|reflexivity].
  cbn [res final trace app].
  pose proof (isExpired_trace svc (reset_password_sent_at user)
                RESET_PASSWORD_TOKEN_EXPIRATION_DURATION_IN_MINUTES w) as Ht.
  destruct (isExpired svc (reset_password_sent_at user)
              RESET_PASSWORD_TOKEN_EXPIRATION_DURATION_IN_MINUTES w)
    as [[[|]|e] w1 t1]; cbn [trace] in Ht; subst t1;
    cbn [res final trace app]; try reflexivity.
  destruct (svc_isPasswordSecure svc password); reflexivity.
Qed.

(** C10. [changePassword token password] examines the strength of the new
    password only once the token is validated: non-empty, matched by the
    lookup, within its window.  When the password then fails the check the
    flow throws [weak_password] and writes nothing, so the stored
    reset-password token and its timestamp are as before, and the same token
    succeeds with a secure password as long as its window has not
    elapsed. *)
Theorem changePassword_weak_password :
  forall (svc : Services) (token : option string) (password : string)
         (w : World),
    let r := changePassword svc token password w in
    let fresh user w' :=
      res (isExpired svc (reset_password_sent_at user)
             RESET_PASSWORD_TOKEN_EXPIRATION_DURATION_IN_MINUTES w')
      = Ok false in
    let valid user :=
      falsy token = false
      /\ user_by_token ResetPassword token (users w) = Some user
      /\ fresh user w in
    (In (EvIsPasswordSecure password) (trace r) -> exists user, valid user)
    /\ (res r = Throw weak_password -> exists user, valid user)
    /\ (forall user,
           valid user -> svc_isPasswordSecure svc password = false ->
           rejected r w weak_password
           /\ forall password',
               svc_isPasswordSecure svc password' = true ->
               fresh user (final r) ->
               exists v, res (changePassword svc token password' (final r))
                         = Ok v).
Proof.
  intros svc token password w r fresh valid. subst r fresh valid. cbv beta.
  rewrite changePassword_run.
  destruct (falsy token) eqn:Hfalsy.
  { cbn [res final trace In]. split; [intros []|].
    split; [discriminate|]. intros user [Hf _]. discriminate Hf. }
  cbv zeta.
  destruct (user_by_token ResetPassword token (users w)) as [user|] eqn:Hfind.
  2:{ cbn [res final trace In]. split; [intros [H|[]]; discriminate H|].
      split; [discriminate|]. intros user [_ [Hf _]]. discriminate Hf. }
  pose proof (isExpired_same_store svc (reset_password_sent_at user)
                RESET_PASSWORD_TOKEN_EXPIRATION_DURATION_IN_MINUTES w)
    as Hsame.
  destruct (res (isExpired svc (reset_password_sent_at user)
                   RESET_PASSWORD_TOKEN_EXPIRATION_DURATION_IN_MINUTES w))
    as [[|]|e] eqn:Hexp.
  - cbn [res final trace In]. split; [intros [H|[]]; discriminate H|].
    split; [discriminate|].
    intros user0 [_ [Heq Hf]]. injection Heq as <-. congruence.
  - destruct (svc_isPasswordSecure svc password) eqn:Hsec;
      cbn [res final trace].
    + split; [intros _; exists user; auto|].
      split; [discriminate|]. intros user0 _ Hno. discriminate Hno.
    + split; [intros _; exists user; auto|].
      split; [intros _; exists user; auto|].
      intros user0 [_ [Heq _]] _. injection Heq as <-.
      split; [rejects|].
      intros password' Hsec' Hfresh.
      pose proof (changePassword_consumes svc
                    (final (isExpired svc (reset_password_sent_at user)
                              RESET_PASSWORD_TOKEN_EXPIRATION_DURATION_IN_MINUTES
                              w))
                    token password') as Hc.
      cbv zeta in Hc. rewrite Hfalsy in Hc.
      destruct Hsame as [Husers _]. rewrite Husers, Hfind in Hc.
      destruct Hc as [_ [Hok _]].
      destruct (Hok Hfresh Hsec') as [Hv _]. exact Hv.
  - cbn [res final trace In]. split; [intros [H|[]]; discriminate H|].
    split; [intro H; injection H as ->|].
    + destruct (isExpired_returns svc (reset_password_sent_at user)
                  RESET_PASSWORD_TOKEN_EXPIRATION_DURATION_IN_MINUTES w)
        as [b Hb]. congruence.
    + intros user0 [_ [Heq Hf]]. injection Heq as <-. congruence.
Qed.

(** ** Issuing a token *)

Lemma slot_holds_update :
  forall s i fields token ms us w,
    (forall u, token_of s (apply_patch fields u) = Some token
               /\ sent_at_of s (apply_patch fields u) = JDate ms) ->
    slot_holds s i token ms (with_users (update_rows i fields us) w).
Proof.
  intros s i fields token ms us w H u Hin Hid. cbn [users with_users] in Hin.
  destruct (update_rows_inv _ _ _ _ Hin Hid) as [u0 [_ [_ ->]]]. apply H.
Qed.

Lemma link_holds_update :
  forall o i fields token ms ms' w,
    (forall m,
        official_contact_email_verification_token
          (apply_link_patch fields m) = Some token
        /\ official_contact_email_verification_sent_at
             (apply_link_patch fields m) = JDate ms) ->
    link_holds o i token ms (with_members (update_links o i fields ms') w).
Proof.
  intros o i fields token ms ms' w H m Hin Hl.
  cbn [members with_members] in Hin.
  destruct (update_links_inv _ _ _ _ _ Hin Hl) as [m0 [_ ->]]. apply H.
Qed.

Lemma sendEmailAddressVerificationEmail_issues :
  forall svc w email' checkBeforeSend user,
    user_by_email email' (users w) = Some user ->
    email_verified user = false ->
    let r := sendEmailAddressVerificationEmail svc email' checkBeforeSend w in
    let expired :=
      res (isExpired svc (verify_email_sent_at user)
             VERIFY_EMAIL_TOKEN_EXPIRATION_DURATION_IN_MINUTES w) in
    (checkBeforeSend = true -> expired = Ok false ->
     res r = Ok false /\ generations (trace r) = []
     /\ writes (trace r) = [] /\ mails (trace r) = []
     /\ same_store w (final r))
    /\ (checkBeforeSend = false \/ expired = Ok true ->
        let token := svc_pin_token svc (draws w) in
        let now := last_reading svc (final r) in
        res r = Ok true
        /\ generations (trace r) = [EvGeneratePinToken]
        /\ writes (trace r) =
           [EvUpdate (id user) [Verify_email_token (Some token);
                                Verify_email_sent_at (JIsoString now)]]
        /\ mails (trace r) =
           [{| to := [email user];
               subject := String.append
                            "Code de confirmation api.gouv.fr : " token;
               template := "verify-email";
               params := [("verify_email_token", JString token)] |}]
        /\ slot_holds VerifyEmail (id user) token now (final r)).
Proof.
  intros svc w email' checkBeforeSend user Hfind Hver r expired.
  subst r expired.
  pose proof (isExpired_same_store svc (verify_email_sent_at user)
                VERIFY_EMAIL_TOKEN_EXPIRATION_DURATION_IN_MINUTES w)
    as [_ [_ [_ [_ Hdraws]]]].
  split.
  - intros -> He. run_flow. rewrite Hfind. cbn [res final trace app].
    rewrite Hver. cbn [res final trace app]. expiry He.
    repeat (split; [reflexivity|]). auto with flows.
  - intros Hissue.
    assert (Hskip :
              checkBeforeSend = false
              \/ checkBeforeSend = true
                 /\ res (isExpired svc (verify_email_sent_at user)
                           VERIFY_EMAIL_TOKEN_EXPIRATION_DURATION_IN_MINUTES
                           w) = Ok true).
    { destruct checkBeforeSend; [right|left; reflexivity].
      destruct Hissue as [H|H]; [discriminate H|auto]. }
    clear Hissue. cbv zeta. unfold last_reading.
    destruct Hskip as [-> | [-> He]];
      run_flow; rewrite Hfind; cbn [res final trace app];
      rewrite Hver; cbn [res final trace app]; try expiry He;
      rewrite ?Hdraws;
      cbn [res final trace app negb writes mails generations filter
           is_write is_generation reads tick drawn with_users Nat.pred];
      (repeat (split; [reflexivity|]));
      apply slot_holds_update; intro u; destruct u; split; reflexivity.
Qed.

Lemma sendOfficialContactEmailVerificationEmail_issues :
  forall svc w user_id organization_id checkBeforeSend user organization
         contact,
    find (fun m => m_id m =? user_id)
         (users_of organization_id (members w)) = Some user ->
    organization_by_id organization_id (organizations w)
    = Some organization ->
    needs_official_contact_email_verification user = true ->
    svc_getContactEmail svc (cached_code_officiel_geographique organization)
    = Some contact ->
    let r := sendOfficialContactEmailVerificationEmail
               svc user_id organization_id checkBeforeSend w in
    let expired :=
      res (isExpired svc (official_contact_email_verification_sent_at user)
             OFFICIAL_CONTACT_EMAIL_VERIFICATION_TOKEN_EXPIRATION_DURATION_IN_MINUTES
             w) in
    let libelle' := cached_libelle organization in
    (checkBeforeSend = true -> expired = Ok false ->
     res r = Ok (mkCodeSent false contact libelle')
     /\ generations (trace r) = []
     /\ writes (trace r) = [] /\ mails (trace r) = []
     /\ same_store w (final r))
    /\ (checkBeforeSend = false \/ expired = Ok true ->
        let token := svc_diceware_password svc (draws w) in
        let now := last_reading svc (final r) in
        res r = Ok (mkCodeSent true contact libelle')
        /\ generations (trace r) = [EvGenerateDicewarePassword]
        /\ writes (trace r) =
           [EvUpdateUserOrganizationLink organization_id user_id
              [Official_contact_email_verification_token (Some token);
               Official_contact_email_verification_sent_at (JDate now)]]
        /\ mails (trace r) =
           [{| to := [contact];
               subject :=
                 "[MonComptePro] Authentifier un email sur MonComptePro";
               template := "official-contact-email-verification";
               params :=
                 [("given_name", m_given_name user);
                  ("family_name", m_family_name user);
                  ("email", JString (m_email user));
                  ("libelle", nullable libelle');
                  ("official_contact_email_verification_token",
                   JString token)] |}]
        /\ link_holds organization_id user_id token now (final r)).
Proof.
  intros svc w user_id organization_id checkBeforeSend user organization
         contact Huser Horg Hneeds Hcontact r expired libelle'.
  subst r expired libelle'.
  pose proof (isExpired_same_store svc
                (official_contact_email_verification_sent_at user)
                OFFICIAL_CONTACT_EMAIL_VERIFICATION_TOKEN_EXPIRATION_DURATION_IN_MINUTES
                w)
    as [_ [_ [_ [_ Hdraws]]]].
  split.
  - intros -> He. run_flow. rewrite Huser, Horg. cbn [res final trace app].
    rewrite Hneeds. cbn [res final trace app negb]. rewrite Hcontact.
    cbn [res final trace app]. expiry He.
    repeat (split; [reflexivity|]). auto with flows.
  - intros Hissue.
    assert (Hskip :
              checkBeforeSend = false
              \/ checkBeforeSend = true
                 /\ res (isExpired svc
                           (official_contact_email_verification_sent_at user)
                           OFFICIAL_CONTACT_EMAIL_VERIFICATION_TOKEN_EXPIRATION_DURATION_IN_MINUTES
                           w) = Ok true).
    { destruct checkBeforeSend; [right|left; reflexivity].
      destruct Hissue as [H|H]; [discriminate H|auto]. }
    clear Hissue. cbv zeta. unfold last_reading.
    destruct Hskip as [-> | [-> He]];
      run_flow; rewrite Huser, Horg; cbn [res final trace app];
      rewrite Hneeds; cbn [res final trace app negb]; rewrite Hcontact;
      cbn [res final trace app]; try expiry He;
      rewrite ?Hdraws;
      cbn [res final trace app negb writes mails generations filter
           is_write is_generation reads tick drawn with_members Nat.pred];
      (repeat (split; [reflexivity|]));
      apply link_holds_update; intro m; destruct m; split; reflexivity.
Qed.

(** C3, amended. Once an issue flow with a [checkBeforeSend] flag has passed
    its guards (for [sendEmailAddressVerificationEmail]: the account is found
    and its address is not verified yet; for
    [sendOfficialContactEmailVerificationEmail]: the member and the
    organization are found, the member needs the verification and the
    directory lookup succeeds): with the flag set and a stored timestamp
    that is not expired it generates no token, writes nothing, sends no mail
    and reports that no mail was sent; with the flag unset, or a stored
    timestamp that is absent or expired, it draws a fresh token, stores it
    with the clock reading it takes then, and sends exactly one mail. *)
Theorem issue_with_checkBeforeSend :
  forall (svc : Services) (w : World),
    (forall email' checkBeforeSend user,
        user_by_email email' (users w) = Some user ->
        email_verified user = false ->
        let r :=
          sendEmailAddressVerificationEmail svc email' checkBeforeSend w in
        let expired :=
          res (isExpired svc (verify_email_sent_at user)
                 VERIFY_EMAIL_TOKEN_EXPIRATION_DURATION_IN_MINUTES w) in
        (checkBeforeSend = true -> expired = Ok false ->
         res r = Ok false /\ generations (trace r) = []
         /\ writes (trace r) = [] /\ mails (trace r) = []
         /\ same_store w (final r))
        /\ (checkBeforeSend = false \/ expired = Ok true ->
            let token := svc_pin_token svc (draws w) in
            let now := last_reading svc (final r) in
            res r = Ok true
            /\ generations (trace r) = [EvGeneratePinToken]
            /\ writes (trace r) =
               [EvUpdate (id user) [Verify_email_token (Some token);
                                    Verify_email_sent_at (JIsoString now)]]
            /\ mails (trace r) =
               [{| to := [email user];
                   subject := String.append
                                "Code de confirmation api.gouv.fr : " token;
                   template := "verify-email";
                   params := [("verify_email_token", JString token)] |}]
            /\ slot_holds VerifyEmail (id user) token now (final r)))
    /\ (forall user_id organization_id checkBeforeSend user organization
               contact,
           find (fun m => m_id m =? user_id)
                (users_of organization_id (members w)) = Some user ->
           organization_by_id organization_id (organizations w)
           = Some organization ->
           needs_official_contact_email_verification user = true ->
           svc_getContactEmail
             svc (cached_code_officiel_geographique organization)
           = Some contact ->
           let r := sendOfficialContactEmailVerificationEmail
                      svc user_id organization_id checkBeforeSend w in
           let expired :=
             res (isExpired
                    svc (official_contact_email_verification_sent_at user)
                    OFFICIAL_CONTACT_EMAIL_VERIFICATION_TOKEN_EXPIRATION_DURATION_IN_MINUTES
                    w) in
           let libelle' := cached_libelle organization in
           (checkBeforeSend = true -> expired = Ok false ->
            res r = Ok (mkCodeSent false contact libelle')
            /\ generations (trace r) = []
            /\ writes (trace r) = [] /\ mails (trace r) = []
            /\ same_store w (final r))
           /\ (checkBeforeSend = false \/ expired = Ok true ->
               let token := svc_diceware_password svc (draws w) in
               let now := last_reading svc (final r) in
               res r = Ok (mkCodeSent true contact libelle')
               /\ generations (trace r) = [EvGenerateDicewarePassword]
               /\ writes (trace r) =
                  [EvUpdateUserOrganizationLink organization_id user_id
                     [Official_contact_email_verification_token (Some token);
                      Official_contact_email_verification_sent_at
                        (JDate now)]]
               /\ mails (trace r) =
                  [{| to := [contact];
                      subject :=
                        "[MonComptePro] Authentifier un email sur MonComptePro";
                      template := "official-contact-email-verification";
                      params :=
                        [("given_name", m_given_name user);
                         ("family_name", m_family_name user);
                         ("email", JString (m_email user));
                         ("libelle", nullable libelle');
                         ("official_contact_email_verification_token",
                          JString token)] |}]
               /\ link_holds organization_id user_id token now (final r))).
Proof.
  intros svc w. split.
  - intros email' checkBeforeSend user Hfind Hver.
    exact (sendEmailAddressVerificationEmail_issues
             svc w email' checkBeforeSend user Hfind Hver).
  - intros user_id organization_id checkBeforeSend user organization contact
           Huser Horg Hneeds Hcontact.
    exact (sendOfficialContactEmailVerificationEmail_issues
             svc w user_id organization_id checkBeforeSend user organization
             contact Huser Horg Hneeds Hcontact).
Qed.

(** C7, amended. When the target account is not found,
    [sendEmailAddressVerificationEmail] fails on reading a property of the
    missing record and [sendOfficialContactEmailVerificationEmail] throws
    [NotFoundError]; neither writes nor sends anything.
    [sendSendMagicLinkEmail] reports nothing: it creates the account, stores
    a fresh magic-link token for it, sends the mail and returns [true]. *)
Theorem issue_for_unknown_account :
  forall (svc : Services) (w : World),
    (forall email' checkBeforeSend,
        user_by_email email' (users w) = None ->
        rejected
          (sendEmailAddressVerificationEmail svc email' checkBeforeSend w)
          w TypeError)
    /\ (forall user_id organization_id checkBeforeSend,
           find (fun m => m_id m =? user_id)
                (users_of organization_id (members w)) = None
           \/ organization_by_id organization_id (organizations w) = None ->
           rejected
             (sendOfficialContactEmailVerificationEmail
                svc user_id organization_id checkBeforeSend w)
             w NotFoundError)
    /\ (forall email',
           user_by_email email' (users w) = None ->
           let r := sendSendMagicLinkEmail svc email' w in
           let user := new_user (next_id w) email' None in
           let token := svc_token svc (draws w) in
           let now := last_reading svc (final r) in
           res r = Ok true
           /\ writes (trace r) =
              [EvCreate email' None;
               EvUpdate (id user) [Magic_link_token (Some token);
                                   Magic_link_sent_at (JIsoString now)]]
           /\ mails (trace r) =
              [{| to := [email'];
                  subject := "Connexion avec un lien magique";
                  template := "magic-link";
                  params :=
                    [("magic_link",
                      JString
                        (String.append (svc_API_AUTH_HOST svc)
                           (String.append
                              "/users/sign-in-with-magic-link?magic_link_token="
                              token)))] |}]
           /\ slot_holds MagicLink (id user) token now (final r)).
Proof.
  intros svc w. split; [|split].
  - intros email' checkBeforeSend Hfind. run_flow. rewrite Hfind. rejects.
  - intros user_id organization_id checkBeforeSend Hmissing. run_flow.
    destruct (find (fun m => m_id m =? user_id)
                   (users_of organization_id (members w))) as [user|];
      [|rejects].
    destruct Hmissing as [H|H]; [discriminate H|]. rewrite H. rejects.
  - intros email' Hfind. cbv zeta. unfold last_reading.
    run_flow. rewrite Hfind.
    cbn [res final trace app negb writes mails filter is_write reads tick
         drawn with_users with_new_user draws Nat.pred id email new_user].
    repeat (split; [reflexivity|]).
    apply slot_holds_update. intro u; destruct u; split; reflexivity.
Qed.

(** ** Empty tokens *)

Lemma verifyOfficialContactEmailToken_lookups :
  forall svc w user_id organization_id token,
    lookups (trace (verifyOfficialContactEmailToken
                      svc user_id organization_id token w)) =
    [EvGetUsers organization_id; EvFindOrganizationById organization_id].
Proof.
  intros svc w user_id organization_id token. run_flow.
  destruct (find (fun m => m_id m =? user_id)
                 (users_of organization_id (members w))) as [user|];
    [|reflexivity].
  destruct (organization_by_id organization_id (organizations w))
    as [organization|]; [|reflexivity].
  cbn [res final trace app].
  destruct (option_string_eqb
              (official_contact_email_verification_token user) (Some token));
    [|reflexivity].
  cbn [res final trace app negb].
  pose proof (isExpired_trace
                svc (official_contact_email_verification_sent_at user)
                OFFICIAL_CONTACT_EMAIL_VERIFICATION_TOKEN_EXPIRATION_DURATION_IN_MINUTES
                w) as Ht.
  destruct (isExpired svc
              (official_contact_email_verification_sent_at user)
              OFFICIAL_CONTACT_EMAIL_VERIFICATION_TOKEN_EXPIRATION_DURATION_IN_MINUTES
              w) as [[[|]|e] w1 t1]; cbn [trace] in Ht; subst t1; reflexivity.
Qed.

(** C2, amended. [loginWithMagicLink] and [changePassword] reject a falsy
    token outright, with [invalid_magic_link] and [invalid_token]: they call
    no collaborator at all, so no lookup is made.
    [verifyOfficialContactEmailToken] has no such guard: whatever the token,
    it first looks up the members of the organization and the organization;
    when both are found and the token stored for the member is not the empty
    string, the empty token is then rejected with [InvalidTokenError] and
    nothing is written. *)
Theorem empty_token_rejected :
  forall (svc : Services) (w : World),
    (forall token,
        falsy token = true ->
        loginWithMagicLink svc token w
        = mkRun (Throw invalid_magic_link) w [])
    /\ (forall token password,
           falsy token = true ->
           changePassword svc token password w
           = mkRun (Throw invalid_token) w [])
    /\ (forall user_id organization_id,
           let r := verifyOfficialContactEmailToken
                      svc user_id organization_id "" w in
           lookups (trace r) =
             [EvGetUsers organization_id;
              EvFindOrganizationById organization_id]
           /\ forall user organization,
               find (fun m => m_id m =? user_id)
                    (users_of organization_id (members w)) = Some user ->
               organization_by_id organization_id (organizations w)
               = Some organization ->
               official_contact_email_verification_token user <> Some "" ->
               rejected r w InvalidTokenError).
Proof.
  intros svc w. split; [|split].
  - intros token Hfalsy. run_flow. rewrite Hfalsy. reflexivity.
  - intros token password Hfalsy. run_flow. rewrite Hfalsy. reflexivity.
  - intros user_id organization_id r. subst r. split.
    + apply verifyOfficialContactEmailToken_lookups.
    + intros user organization Huser Horg Hstored.
      pose proof (verifyOfficialContactEmailToken_consumes
                    svc w user_id organization_id "") as Hc.
      cbv zeta in Hc. rewrite Huser, Horg in Hc.
      destruct (official_contact_email_verification_token user)
        as [stored|] eqn:Htok; cbn [option_string_eqb] in Hc.
      * destruct (String.eqb stored "") eqn:Heq; [|exact Hc].
        apply String.eqb_eq in Heq. subst stored. contradiction Hstored.
        reflexivity.
      * exact Hc.
Qed.

(** ** Tokens and timestamps go together *)

Lemma token_of_apply_patch :
  forall s fields u,
    token_of s (apply_patch fields u) =
    match assigned_token s fields with
    | Some v => v
    | None => token_of s u
    end.
Proof.
  intros s fields. induction fields as [|a fields IH]; intro u.
  - reflexivity.
  - cbn [apply_patch assigned_token]. rewrite IH.
    destruct (assigned_token s fields); [reflexivity|].
    destruct a as [| | | |s0 v|s0 v| | | |], u; try reflexivity;
      destruct s, s0; reflexivity.
Qed.

Lemma sent_at_of_apply_patch :
  forall s fields u,
    sent_at_of s (apply_patch fields u) =
    match assigned_sent_at s fields with
    | Some v => timestamptz v
    | None => sent_at_of s u
    end.
Proof.
  intros s fields. induction fields as [|a fields IH]; intro u.
  - reflexivity.
  - cbn [apply_patch assigned_sent_at]. rewrite IH.
    destruct (assigned_sent_at s fields); [reflexivity|].
    destruct a as [| | | |s0 v|s0 v| | | |], u; try reflexivity;
      destruct s, s0; reflexivity.
Qed.

Lemma link_token_apply_link_patch :
  forall fields m,
    official_contact_email_verification_token (apply_link_patch fields m) =
    match assigned_link_token fields with
    | Some v => v
    | None => official_contact_email_verification_token m
    end.
Proof.
  induction fields as [|a fields IH]; intro m.
  - reflexivity.
  - cbn [apply_link_patch assigned_link_token]. rewrite IH.
    destruct (assigned_link_token fields); [reflexivity|].
    destruct a, m; reflexivity.
Qed.

Lemma link_sent_at_apply_link_patch :
  forall fields m,
    official_contact_email_verification_sent_at (apply_link_patch fields m) =
    match assigned_link_sent_at fields with
    | Some v => timestamptz v
    | None => official_contact_email_verification_sent_at m
    end.
Proof.
  induction fields as [|a fields IH]; intro m.
  - reflexivity.
  - cbn [apply_link_patch assigned_link_sent_at]. rewrite IH.
    destruct (assigned_link_sent_at fields); [reflexivity|].
    destruct a, m; reflexivity.
Qed.

Lemma written_together_paired :
  forall token sent_at old_token old_sent_at,
    written_together token sent_at = true ->
    paired old_token old_sent_at ->
    paired (match token with Some v => v | None => old_token end)
           (match sent_at with
            | Some v => timestamptz v
            | None => old_sent_at
            end).
Proof.
  intros [[t|]|] [v|] old_token old_sent_at Hw Hold; cbn in Hw;
    try discriminate Hw; try exact Hold;
    destruct v; try discriminate Hw; cbn [timestamptz];
    split; intro H; try reflexivity; discriminate H.
Qed.

Lemma user_paired_apply_patch :
  forall fields u,
    patch_paired fields -> user_paired u -> user_paired (apply_patch fields u).
Proof.
  intros fields u Hp Hu s.
  rewrite token_of_apply_patch, sent_at_of_apply_patch.
  apply written_together_paired; [apply Hp | apply Hu].
Qed.

Lemma member_paired_apply_link_patch :
  forall fields m,
    link_patch_paired fields -> member_paired m ->
    member_paired (apply_link_patch fields m).
Proof.
  intros fields m Hp Hm. unfold member_paired.
  rewrite link_token_apply_link_patch, link_sent_at_apply_link_patch.
  apply written_together_paired; [apply Hp | apply Hm].
Qed.

Lemma user_paired_new_user : forall i e h, user_paired (new_user i e h).
Proof. intros i e h s. destruct s; split; reflexivity. Qed.

(** A call that writes no row: its event is no update, and the stored rows
    are those of before. *)
Ltac keeps_rows :=
  intro w; cbn [res final trace emit ret throw];
  split; [repeat constructor | intros [Hu Hm]; split; assumption].

Lemma keeps_ret : forall (A : Type) (a : A), keeps (ret a).
Proof. intros A a. keeps_rows. Qed.

Lemma keeps_throw : forall (A : Type) (e : error), keeps (@throw A e).
Proof. intros A e. keeps_rows. Qed.

Lemma keeps_bind :
  forall (A B : Type) (m : M A) (k : A -> M B),
    keeps m -> (forall a, keeps (k a)) -> keeps (bind m k).
Proof.
  intros A B m k Hm Hk w. unfold bind.
  destruct (Hm w) as [Ht Hs].
  destruct (m w) as [[a|e] w1 t1]; cbn [res final trace] in *.
  - destruct (Hk a w1) as [Ht' Hs'].
    destruct (k a w1) as [r w2 t2]; cbn [res final trace] in *.
    split; [apply Forall_app; auto | auto].
  - auto.
Qed.

Lemma keeps_try_catch :
  forall (A : Type) (m : M A) (h : error -> M A),
    keeps m -> (forall e, keeps (h e)) -> keeps (try_catch m h).
Proof.
  intros A m h Hm Hh w. unfold try_catch.
  destruct (Hm w) as [Ht Hs].
  destruct (m w) as [[a|e] w1 t1]; cbn [res final trace] in *.
  - auto.
  - destruct (Hh e w1) as [Ht' Hs'].
    destruct (h e w1) as [r w2 t2]; cbn [res final trace] in *.
    split; [apply Forall_app; auto | auto].
Qed.

Lemma keeps_forget : forall (A : Type) (m : M A), keeps m -> keeps (forget m).
Proof.
  intros A m Hm w. unfold forget. specialize (Hm w).
  destruct (m w) as [r w1 t1]. exact Hm.
Qed.

Lemma keeps_answer :
  forall (A : Type) (e : Event) (f : World -> A),
    event_paired e -> keeps (fun w => emit e (f w) w).
Proof.
  intros A e f He w. cbn [res final trace emit].
  split; [repeat constructor; exact He | auto].
Qed.

Lemma keeps_emit :
  forall (A : Type) (e : Event) (a : A), event_paired e -> keeps (emit e a).
Proof.
  intros A e a He w. cbn [res final trace emit].
  split; [repeat constructor; exact He | auto].
Qed.

Lemma keeps_defined : forall (A : Type) (o : option A), keeps (defined o).
Proof. intros A [a|]; [apply keeps_ret | apply keeps_throw]. Qed.

Lemma keeps_new_Date : forall svc, keeps (new_Date svc).
Proof. intros svc. keeps_rows. Qed.

Lemma keeps_isExpired : forall svc t d, keeps (isExpired svc t d).
Proof.
  intros svc t d. destruct t; cbn [isExpired];
    try apply keeps_ret.
  apply keeps_bind; [apply keeps_new_Date | intro; apply keeps_ret].
Qed.

Lemma keeps_generatePinToken : forall svc, keeps (generatePinToken svc).
Proof. intros svc. keeps_rows. Qed.

Lemma keeps_generateToken : forall svc, keeps (generateToken svc).
Proof. intros svc. keeps_rows. Qed.

Lemma keeps_generateDicewarePassword :
  forall svc, keeps (generateDicewarePassword svc).
Proof. intros svc. keeps_rows. Qed.

Lemma keeps_getContactEmail : forall svc code, keeps (getContactEmail svc code).
Proof. intros svc code. keeps_rows. Qed.

Lemma keeps_create : forall email' hash, keeps (create email' hash).
Proof.
  intros email' hash w. cbn [res final trace create].
  split; [repeat constructor|].
  intros [Hu Hm]. split; [|exact Hm]. cbn [users with_new_user].
  apply Forall_app. split; [exact Hu|].
  constructor; [apply user_paired_new_user | constructor].
Qed.

Lemma keeps_update :
  forall i fields, patch_paired fields -> keeps (update i fields).
Proof.
  intros i fields Hp w. cbn [res final trace update].
  split; [repeat constructor; exact Hp|].
  intros [Hu Hm]. split; [|exact Hm]. cbn [users with_users].
  unfold update_rows.
  apply Forall_map. revert Hu. apply Forall_impl. intros u Hpaired.
  destruct (id u =? i); [apply user_paired_apply_patch|]; assumption.
Qed.

Lemma keeps_updateUserOrganizationLink :
  forall o i fields,
    link_patch_paired fields -> keeps (updateUserOrganizationLink o i fields).
Proof.
  intros o i fields Hp w. cbn [res final trace updateUserOrganizationLink].
  split; [repeat constructor; exact Hp|].
  intros [Hu Hm]. split; [exact Hu|]. cbn [members with_members].
  unfold update_links.
  apply Forall_map. revert Hm. apply Forall_impl. intros m Hpaired.
  destruct (is_link o i m); [apply member_paired_apply_link_patch|];
    assumption.
Qed.

(** A literal patch writes its pairs as a whole. *)
Ltac patch_ok :=
  solve [ let s := fresh "s" in intro s; destruct s; reflexivity
        | reflexivity
        | exact I ].

(** Every flow is walked through one call after the other: a bind splits
    into its two parts, a test into its branches, and each collaborator call
    is closed by its own lemma. *)
Lemma keeps_perform : forall svc c, keeps (perform svc c).
Proof.
  intros svc c. destruct c; cbn [perform];
    unfold startLogin, login, signup, sendEmailAddressVerificationEmail,
      verifyEmail, sendSendMagicLinkEmail, loginWithMagicLink,
      sendResetPasswordEmail, changePassword, updatePersonalInformations,
      sendOfficialContactEmailVerificationEmail,
      verifyOfficialContactEmailToken, isExpired_service,
      findByEmail, findByVerifyEmailToken, findByMagicLinkToken,
      findByResetPasswordToken, getUsers, findOrganizationById,
      isEmailSafeToSendTransactional, sendMail, hashPassword,
      validatePassword, isPasswordSecure, isPhoneNumberValid;
    repeat first
      [ progress cbv zeta
      | apply keeps_bind; [|intros ?]
      | apply keeps_try_catch; [|intros ?]
      | apply keeps_forget
      | apply keeps_ret
      | apply keeps_throw
      | apply keeps_defined
      | apply keeps_new_Date
      | apply keeps_isExpired
      | apply keeps_generatePinToken
      | apply keeps_generateToken
      | apply keeps_generateDicewarePassword
      | apply keeps_getContactEmail
      | apply keeps_create
      | apply keeps_update; patch_ok
      | apply keeps_updateUserOrganizationLink; patch_ok
      | apply keeps_answer; patch_ok
      | apply keeps_emit; patch_ok
      | match goal with
        | |- keeps (if ?b then _ else _) => destruct b
        | |- keeps (match ?x with _ => _ end) => destruct x
        end ].
Qed.

(** C8. Every write of every flow treats a token and its issuance timestamp
    as a whole: the object given to [update] or to
    [updateUserOrganizationLink] leaves both out, or sets both to null, or
    sets the token to a string and the timestamp to an instant.  Hence,
    after any sequence of calls of the flows, a stored token is null exactly
    when its timestamp is, provided this held before. *)
Theorem pairs_written_together :
  forall (svc : Services) (calls : list Call) (w : World),
    Forall event_paired (trace (perform_all svc calls w))
    /\ (store_paired w -> store_paired (final (perform_all svc calls w))).
Proof.
  intros svc calls. change (keeps (perform_all svc calls)).
  induction calls as [|c calls IH]; cbn [perform_all].
  - apply keeps_ret.
  - apply keeps_bind; [apply keeps_perform | intros _; exact IH].
Qed.

(** ** The properties on the small store *)

Lemma isExpired_contract_witness :
  res (isExpired Demo.services (JDate (10000000 - 61 * 60000)) 60 Demo.world)
  = Ok true
  /\ res (isExpired Demo.services (JDate (10000000 - 60 * 60000)) 60
            Demo.world) = Ok false
  /\ res (isExpired Demo.services JNull 60 Demo.world) = Ok true.
Proof.
  split; [|split].
  - destruct (isExpired_contract Demo.services
                (JDate (10000000 - 61 * 60000)) 60 Demo.world)
      as [_ [_ [[_ H] _]]].
    apply H. vm_compute. reflexivity.
  - destruct (isExpired_contract Demo.services
                (JDate (10000000 - 60 * 60000)) 60 Demo.world)
      as [_ [_ [_ [_ H]]]].
    apply H. vm_compute. discriminate.
  - destruct (isExpired_contract Demo.services JNull 60 Demo.world)
      as [_ [_ [H _]]].
    exact H.
Defined.

Lemma login_contract_witness :
  (exists v,
      res (login Demo.services "alice@example.org" "correct horse" Demo.world)
      = Ok v)
  /\ rejected (login Demo.services "alice@example.org" "guess" Demo.world)
              Demo.world invalid_credentials
  /\ rejected (login Demo.services "nobody@example.org" "guess" Demo.world)
              Demo.world invalid_credentials.
Proof.
  split; [|split].
  - destruct (login_contract Demo.services "alice@example.org"
                "correct horse" Demo.world) as [[_ H] _].
    apply H. exists Demo.alice. split; reflexivity.
  - destruct (login_contract Demo.services "alice@example.org" "guess"
                Demo.world) as [_ [_ [_ [H _]]]].
    apply (H Demo.alice); [reflexivity | discriminate].
  - destruct (login_contract Demo.services "nobody@example.org" "guess"
                Demo.world) as [_ [_ [H _]]].
    apply H. reflexivity.
Defined.

Lemma signup_contract_witness :
  rejected (signup Demo.services "alice@example.org" "short" Demo.world)
           Demo.world email_unavailable
  /\ rejected (signup Demo.services "dave@example.org" "short" Demo.world)
              Demo.world weak_password
  /\ res (signup Demo.services "dave@example.org" "a long passphrase"
            Demo.world)
     = Ok (new_user 4 "dave@example.org" (Some "hash:a long passphrase")).
Proof.
  split; [|split].
  - destruct (signup_contract Demo.services "alice@example.org" "short"
                Demo.world) as [H _].
    destruct (H Demo.alice) as [Hr _]; [reflexivity | exact Hr].
  - destruct (signup_contract Demo.services "dave@example.org" "short"
                Demo.world) as [_ [H _]].
    apply H; reflexivity.
  - destruct (signup_contract Demo.services "dave@example.org"
                "a long passphrase" Demo.world) as [_ [_ [H _]]].
    destruct H as [Hr _]; [reflexivity | reflexivity | exact Hr].
Defined.

Lemma sendResetPasswordEmail_unknown_account_witness :
  res (sendResetPasswordEmail Demo.services "nobody@example.org" Demo.world)
  = Ok true
  /\ final (sendResetPasswordEmail Demo.services "nobody@example.org"
              Demo.world) = Demo.world
  /\ mails (trace (sendResetPasswordEmail Demo.services "nobody@example.org"
                     Demo.world)) = [].
Proof.
  destruct (sendResetPasswordEmail_unknown_account
              Demo.services "nobody@example.org" Demo.world) as [Hres H].
  destruct H as [Hfinal [_ [Hmails _]]]; [reflexivity|].
  auto.
Defined.

Lemma changePassword_weak_password_witness :
  rejected (changePassword Demo.services (Some "reset-abc") "short"
              Demo.world)
           Demo.world weak_password
  /\ exists v,
      res (changePassword Demo.services (Some "reset-abc")
             "a long passphrase"
             (final (changePassword Demo.services (Some "reset-abc") "short"
                       Demo.world)))
      = Ok v.
Proof.
  destruct (changePassword_weak_password Demo.services (Some "reset-abc")
              "short" Demo.world) as [_ [_ H]].
  destruct (H Demo.alice) as [Hr Hretry].
  - split; [reflexivity|]. split; reflexivity.
  - reflexivity.
  - split; [exact Hr|]. apply Hretry; reflexivity.
Defined.

(** C1, as stated, fails: user 99 is no member of organization 10, so the
    token matches no stored value, and the flow throws [NotFoundError], not
    its invalid-token error. *)
Lemma consume_unknown_member_not_invalid_token :
  (forall m, In m (members Demo.world) ->
             official_contact_email_verification_token m <> Some "abc")
  /\ res (verifyOfficialContactEmailToken Demo.services 99 10 "abc"
            Demo.world) = Throw NotFoundError
  /\ res (verifyOfficialContactEmailToken Demo.services 99 10 "abc"
            Demo.world) <> Throw InvalidTokenError.
Proof.
  split; [|split].
  - intros m [<-|[<-|[]]]; discriminate.
  - reflexivity.
  - discriminate.
Qed.

Lemma consume_token_contract_witness :
  (exists v, res (verifyEmail Demo.services (Some "222222") Demo.world) = Ok v)
  /\ rejected (verifyEmail Demo.services (Some "111111") Demo.world)
              Demo.world invalid_token
  /\ rejected (verifyEmail Demo.services (Some "000000") Demo.world)
              Demo.world invalid_token
  /\ rejected (loginWithMagicLink Demo.services (Some "nope") Demo.world)
              Demo.world invalid_magic_link
  /\ (exists v,
         res (verifyOfficialContactEmailToken Demo.services 1 10
                "brume-cactus" Demo.world) = Ok v).
Proof.
  destruct (consume_token_contract Demo.services Demo.world)
    as [_ [Hverify [Hmagic [_ Hcontact]]]].
  split; [|split; [|split; [|split]]].
  - destruct (Hverify (Some "222222") eq_refl) as [_ [H _]].
    destruct H as [Hv _]; [reflexivity | reflexivity | exact Hv].
  - destruct (Hverify (Some "111111") eq_refl) as [H _]. apply H. reflexivity.
  - exact (Hverify (Some "000000") eq_refl).
  - exact (Hmagic (Some "nope")).
  - destruct (Hcontact 1 10 "brume-cactus") as [_ [H _]].
    destruct H as [Hv _]; [reflexivity | reflexivity | exact Hv].
Defined.

(** C2, as stated, fails: with the empty token
    [verifyOfficialContactEmailToken] makes its two lookups before it
    rejects, and for a user who is no member it throws [NotFoundError]. *)
Lemma empty_token_looked_up :
  lookups (trace (verifyOfficialContactEmailToken Demo.services 1 10 ""
                    Demo.world))
  = [EvGetUsers 10; EvFindOrganizationById 10]
  /\ res (verifyOfficialContactEmailToken Demo.services 1 10 "" Demo.world)
     = Throw InvalidTokenError
  /\ res (verifyOfficialContactEmailToken Demo.services 99 10 "" Demo.world)
     = Throw NotFoundError.
Proof. split; [|split]; reflexivity. Qed.

Lemma empty_token_rejected_witness :
  loginWithMagicLink Demo.services (Some "") Demo.world
  = mkRun (Throw invalid_magic_link) Demo.world []
  /\ changePassword Demo.services None "a long passphrase" Demo.world
     = mkRun (Throw invalid_token) Demo.world []
  /\ rejected (verifyOfficialContactEmailToken Demo.services 1 10 ""
                 Demo.world)
              Demo.world InvalidTokenError.
Proof.
  destruct (empty_token_rejected Demo.services Demo.world)
    as [Hmagic [Hchange Hcontact]].
  split; [|split].
  - apply Hmagic. reflexivity.
  - apply Hchange. reflexivity.
  - destruct (Hcontact 1 10) as [_ H].
    apply (H Demo.alice_member Demo.commune);
      [reflexivity | reflexivity | discriminate].
Defined.

(** C3, as stated, fails: with [checkBeforeSend] unset, the flow asked for
    an address that is verified already throws and neither draws a token nor
    sends a mail. *)
Lemma issue_refused_for_verified_address :
  user_by_email "alice@example.org" (users Demo.world) = Some Demo.alice
  /\ res (sendEmailAddressVerificationEmail Demo.services
            "alice@example.org" false Demo.world)
     = Throw email_verified_already
  /\ generations (trace (sendEmailAddressVerificationEmail Demo.services
                           "alice@example.org" false Demo.world)) = []
  /\ mails (trace (sendEmailAddressVerificationEmail Demo.services
                     "alice@example.org" false Demo.world)) = [].
Proof. repeat split. Qed.

Lemma issue_with_checkBeforeSend_witness :
  res (sendEmailAddressVerificationEmail Demo.services "carol@example.org"
         true Demo.world) = Ok false
  /\ res (sendEmailAddressVerificationEmail Demo.services "bob@example.org"
            true Demo.world) = Ok true
  /\ List.length (mails (trace (sendEmailAddressVerificationEmail Demo.services
                             "carol@example.org" false Demo.world)))
     = 1%nat
  /\ res (sendOfficialContactEmailVerificationEmail Demo.services 1 10 true
            Demo.world)
     = Ok (mkCodeSent false "mairie@commune.example"
                      (Some "Commune de Paris")).
Proof.
  destruct (issue_with_checkBeforeSend Demo.services Demo.world)
    as [Haddress Hcontact].
  split; [|split; [|split]].
  - destruct (Haddress "carol@example.org" true Demo.carol) as [H _];
      [reflexivity | reflexivity |].
    destruct H as [Hr _]; [reflexivity | reflexivity | exact Hr].
  - destruct (Haddress "bob@example.org" true Demo.bob) as [_ H];
      [reflexivity | reflexivity |].
    destruct H as [Hr _]; [right; reflexivity | exact Hr].
  - destruct (Haddress "carol@example.org" false Demo.carol) as [_ H];
      [reflexivity | reflexivity |].
    destruct H as [_ [_ [_ [Hm _]]]]; [left; reflexivity |].
    rewrite Hm. reflexivity.
  - destruct (Hcontact 1 10 true Demo.alice_member Demo.commune
                "mairie@commune.example") as [H _];
      [reflexivity | reflexivity | reflexivity | reflexivity |].
    destruct H as [Hr _]; [reflexivity | reflexivity | exact Hr].
Defined.

(** C7, as stated, fails: asked for an address that no account has,
    [sendSendMagicLinkEmail] reports no error; it creates the account, sends
    one mail and returns [true]. *)
Lemma magic_link_for_unknown_address_proceeds :
  user_by_email "dave@example.org" (users Demo.world) = None
  /\ res (sendSendMagicLinkEmail Demo.services "dave@example.org" Demo.world)
     = Ok true
  /\ writes (trace (sendSendMagicLinkEmail Demo.services "dave@example.org"
                      Demo.world))
     = [EvCreate "dave@example.org" None;
        EvUpdate 4 [Magic_link_token (Some "tok-a");
                    Magic_link_sent_at (JIsoString 10000000)]]
  /\ List.length (mails (trace (sendSendMagicLinkEmail Demo.services
                             "dave@example.org" Demo.world))) = 1%nat.
Proof. repeat split. Qed.

Lemma issue_for_unknown_account_witness :
  rejected (sendEmailAddressVerificationEmail Demo.services
              "nobody@example.org" false Demo.world)
           Demo.world TypeError
  /\ rejected (sendOfficialContactEmailVerificationEmail Demo.services 99 10
                 false Demo.world)
              Demo.world NotFoundError
  /\ res (sendSendMagicLinkEmail Demo.services "dave@example.org" Demo.world)
     = Ok true.
Proof.
  destruct (issue_for_unknown_account Demo.services Demo.world)
    as [Haddress [Hcontact Hmagic]].
  split; [|split].
  - apply Haddress. reflexivity.
  - apply Hcontact. left. reflexivity.
  - destruct (Hmagic "dave@example.org") as [Hr _]; [reflexivity | exact Hr].
Defined.

Lemma store_paired_demo : store_paired Demo.world.
Proof.
  split; cbn [users members Demo.world];
    repeat apply Forall_cons; try apply Forall_nil;
    try (intro s; destruct s);
    split; intro H; try reflexivity; discriminate H.
Defined.

Lemma pairs_written_together_witness :
  store_paired
    (final (perform_all Demo.services
              [CallSendSendMagicLinkEmail "dave@example.org";
               CallLoginWithMagicLink (Some "tok-a");
               CallSendResetPasswordEmail "alice@example.org";
               CallChangePassword (Some "tok-b") "a long passphrase";
               CallSendOfficialContactEmailVerificationEmail 1 10 false;
               CallVerifyOfficialContactEmailToken 1 10 "brume-cactus"]
              Demo.world)).
Proof.
  destruct (pairs_written_together Demo.services
              [CallSendSendMagicLinkEmail "dave@example.org";
               CallLoginWithMagicLink (Some "tok-a");
               CallSendResetPasswordEmail "alice@example.org";
               CallChangePassword (Some "tok-b") "a long passphrase";
               CallSendOfficialContactEmailVerificationEmail 1 10 false;
               CallVerifyOfficialContactEmailToken 1 10 "brume-cactus"]
              Demo.world) as [_ H].
  apply H. exact store_paired_demo.
Defined.

(** [verifyEmail] has no guard on the token: whatever it is, the lookup is
    made with it. *)
Lemma verifyEmail_looks_up_any_token :
  forall svc token w,
    lookups (trace (verifyEmail svc token w))
    = [EvFindByVerifyEmailToken token].
Proof.
  intros svc token w. run_flow.
  destruct (user_by_token VerifyEmail token (users w)) as [user|];
    [|reflexivity].
  cbn [res final trace app].
  pose proof (isExpired_trace svc (verify_email_sent_at user)
                VERIFY_EMAIL_TOKEN_EXPIRATION_DURATION_IN_MINUTES w) as Ht.
  destruct (isExpired svc (verify_email_sent_at user)
              VERIFY_EMAIL_TOKEN_EXPIRATION_DURATION_IN_MINUTES w)
    as [[[|]|e] w1 t1]; cbn [trace] in Ht; subst t1; reflexivity.
Qed.

(** A successful login on the small store: the calls it makes, in order. *)
Example login_alice :
  trace (login Demo.services "alice@example.org" "correct horse" Demo.world)
  = [EvFindByEmail "alice@example.org";
     EvValidatePassword "correct horse" (Some "hash:correct horse");
     EvUpdate 1 [Sign_in_count 4; Last_sign_in_at (JIsoString 10000000)]].
Proof. reflexivity. Qed.

(** A code issued sixty-one minutes ago is refused like an unknown one. *)
Example verifyEmail_expired_like_unknown :
  res (verifyEmail Demo.services (Some "111111") Demo.world)
  = Throw invalid_token
  /\ res (verifyEmail Demo.services (Some "999999") Demo.world)
     = Throw invalid_token.
Proof. split; reflexivity. Qed.

(** With the wildcard of the lookup layer, the empty token given to
    [verifyEmail] verifies the first account whose code is within its
    window. *)
Example verifyEmail_empty_token_verifies :
  writes (trace (verifyEmail Demo.services None
                   (with_users [Demo.carol; Demo.bob] Demo.world)))
  = [EvUpdate 3 [Email_verified true; Verify_email_token None;
                 Verify_email_sent_at JNull]].
Proof. reflexivity. Qed.

(** A second request within the window sends nothing; without the flag it
    sends again. *)
Example resend_within_window :
  mails (trace (sendEmailAddressVerificationEmail Demo.services
                  "carol@example.org" true Demo.world)) = []
  /\ mails (trace (sendEmailAddressVerificationEmail Demo.services
                     "carol@example.org" false Demo.world))
     = [{| to := ["carol@example.org"];
           subject := "Code de confirmation api.gouv.fr : 482913";
           template := "verify-email";
           params := [("verify_email_token", JString "482913")] |}].
Proof. split; reflexivity. Qed.

(** ** Further properties of the flows *)

(** X1. [startLogin] never writes and never sends anything.  For a known
    address it answers that the user exists without consulting the e-mail
    safety check; for an unknown address it consults the check once and
    throws [invalid_email] exactly when the check fails. *)
Theorem startLogin_contract :
  forall (svc : Services) (email' : string) (w : World),
    let r := startLogin svc email' w in
    final r = w /\ writes (trace r) = [] /\ mails (trace r) = []
    /\ match user_by_email email' (users w) with
       | Some _ =>
           res r = Ok (email', true) /\ trace r = [EvFindByEmail email']
       | None =>
           trace r = [EvFindByEmail email';
                      EvIsEmailSafeToSendTransactional email']
           /\ res r = if svc_isEmailSafeToSendTransactional svc email'
                      then Ok (email', false)
                      else Throw invalid_email
       end.
Proof.
  intros svc email' w r. subst r. run_flow.
  destruct (user_by_email email' (users w)) as [user|];
    cbn [res final trace app isEmpty negb].
  - repeat split.
  - destruct (svc_isEmailSafeToSendTransactional svc email');
      cbn [res final trace app negb]; repeat split.
Qed.

(** X2. [updatePersonalInformations] validates before it persists.  When
    the given name, the family name or the job is not a string it throws
    [invalid_personal_informations] without calling anything, not even the
    phone-number check; with three strings and a phone number the check
    refuses it throws the same error and writes nothing; otherwise it makes
    one update carrying exactly the four fields, which the rows of that id
    then hold. *)
Theorem updatePersonalInformations_contract :
  forall (svc : Services) (userId : Z)
         (given_name' family_name' phone_number' job' : jsvalue) (w : World),
    let r := updatePersonalInformations svc userId given_name' family_name'
                                        phone_number' job' w in
    let strings :=
      isString given_name' && isString family_name' && isString job' in
    (strings = false ->
     r = mkRun (Throw invalid_personal_informations) w [])
    /\ (strings = true ->
        svc_isPhoneNumberValid svc phone_number' = false ->
        rejected r w invalid_personal_informations
        /\ trace r = [EvIsPhoneNumberValid phone_number'])
    /\ (strings = true ->
        svc_isPhoneNumberValid svc phone_number' = true ->
        (exists v, res r = Ok v)
        /\ writes (trace r) =
           [EvUpdate userId [Given_name given_name';
                             Family_name family_name';
                             Phone_number phone_number';
                             Job job']]
        /\ forall u, In u (users (final r)) -> id u = userId ->
                     given_name u = given_name'
                     /\ family_name u = family_name'
                     /\ phone_number u = phone_number' /\ job u = job').
Proof.
  intros svc userId g f ph j w r strings. subst r strings.
  run_flow.
  destruct (isString g), (isString f), (isString j);
    cbn [andb orb negb res final trace app];
    try (split; [intros _; reflexivity | split; discriminate]).
  split; [discriminate|].
  destruct (svc_isPhoneNumberValid svc ph); cbn [negb res final trace app].
  - split; [intros _ H; discriminate H|]. intros _ _.
    split; [eexists; reflexivity|]. split; [reflexivity|].
    intros u Hin Hid. cbn [users with_users] in Hin.
    destruct (update_rows_inv _ _ _ _ Hin Hid) as [u0 [_ [_ ->]]].
    destruct u0; cbn; repeat split; reflexivity.
  - split; [|intros _ H; discriminate H].
    intros _ _. split; [rejects | reflexivity].
Qed.

(** X3. For a known account [sendResetPasswordEmail] always issues, without
    looking at the token already stored: it draws one fresh token, stores it
    with the clock reading it takes then, and sends exactly one mail, to the
    account's address, whose link is the host, the change-password path and
    that token. *)
Theorem sendResetPasswordEmail_known_account :
  forall (svc : Services) (email' : string) (w : World) (user : User),
    user_by_email email' (users w) = Some user ->
    let r := sendResetPasswordEmail svc email' w in
    let token := svc_token svc (draws w) in
    let now := svc_clock svc (reads w) in
    res r = Ok true
    /\ generations (trace r) = [EvGenerateToken]
    /\ writes (trace r) =
       [EvUpdate (id user) [Reset_password_token (Some token);
                            Reset_password_sent_at (JIsoString now)]]
    /\ mails (trace r) =
       [{| to := [email user];
           subject := "Instructions pour la réinitialisation du mot de passe";
           template := "reset-password";
           params :=
             [("reset_password_link",
               JString
                 (String.append (svc_API_AUTH_HOST svc)
                    (String.append
                       "/users/change-password?reset_password_token="
                       token)))] |}]
    /\ slot_holds ResetPassword (id user) token now (final r).
Proof.
  intros svc email' w user Hfind r token now. subst r token now.
  run_flow. rewrite Hfind.
  cbn [res final trace app negb writes mails generations filter is_write
       is_generation reads tick drawn with_users draws].
  repeat (split; [reflexivity|]).
  apply slot_holds_update. intro u; destruct u; split; reflexivity.
Qed.

(** X4. [sendSendMagicLinkEmail] has no [throw] of its own: as long as its
    collaborators answer, it returns [true] and sends exactly one mail
    whatever the address.  For a known account it creates nothing: it
    stores a fresh magic-link token with the clock reading and mails the
    sign-in link to the account's address. *)
Theorem sendSendMagicLinkEmail_contract :
  forall (svc : Services) (email' : string) (w : World),
    let r := sendSendMagicLinkEmail svc email' w in
    let token := svc_token svc (draws w) in
    let now := svc_clock svc (reads w) in
    res r = Ok true
    /\ List.length (mails (trace r)) = 1%nat
    /\ generations (trace r) = [EvGenerateToken]
    /\ forall user,
        user_by_email email' (users w) = Some user ->
        writes (trace r) =
          [EvUpdate (id user) [Magic_link_token (Some token);
                               Magic_link_sent_at (JIsoString now)]]
        /\ mails (trace r) =
           [{| to := [email user];
               subject := "Connexion avec un lien magique";
               template := "magic-link";
               params :=
                 [("magic_link",
                   JString
                     (String.append (svc_API_AUTH_HOST svc)
                        (String.append
                           "/users/sign-in-with-magic-link?magic_link_token="
                           token)))] |}]
        /\ slot_holds MagicLink (id user) token now (final r).
Proof.
  intros svc email' w r token now. subst r token now. run_flow.
  destruct (user_by_email email' (users w)) as [user|];
    cbn [res final trace app negb writes mails generations filter is_write
         is_generation reads tick drawn with_users with_new_user draws
         List.length];
    repeat (split; [reflexivity|]).
  - intros user0 Heq. injection Heq as <-.
    repeat (split; [reflexivity|]).
    apply slot_holds_update. intro u; destruct u; split; reflexivity.
  - discriminate.
Qed.

(** ** What every call has in common *)

(** Runs a call of any flow through all its branches. *)
Ltac every_branch :=
  unfold invoke, void; run_flow;
  repeat (match goal with
          | |- context [match isExpired ?s ?t ?d ?w with _ => _ end] =>
              let b := fresh "b" in
              let Hb := fresh "Hb" in
              destruct (isExpired_returns s t d w) as [b Hb];
              rewrite (isExpired_outcome s t d w b Hb); destruct b
          | |- context [match ?x with _ => _ end] =>
              lazymatch x with
              | context [match _ with _ => _ end] => fail
              | _ => destruct x eqn:?
              end
          end; cbn [res final trace app negb isEmpty]).


(** X6. Every [throw] of a flow comes before its first write.  A call
    that ends in an error of the flow itself (its collaborators answering,
    the directory lookup apart) has made no write, sent no mail, and the
    store is the one it started from. *)
Theorem thrown_call_changes_nothing :
  forall (svc : Services) (c : Call) (w : World) (e : error),
    res (invoke svc c w) = Throw e ->
    writes (trace (invoke svc c w)) = []
    /\ mails (trace (invoke svc c w)) = []
    /\ same_store w (final (invoke svc c w)).
Proof.
  intros svc c w e. destruct c; every_branch;
    intro H; try discriminate H;
    (split; [reflexivity | split; [reflexivity | auto with flows]]).
Qed.

Lemma string_append_assoc :
  forall a b c,
    String.append (String.append a b) c = String.append a (String.append b c).
Proof.
  induction a as [|ch a IH]; intros b c; cbn [String.append].
  - reflexivity.
  - rewrite IH. reflexivity.
Qed.

Lemma ends_with_refl : forall t, ends_with t t.
Proof. intro t. exists "". reflexivity. Qed.

Lemma ends_with_String :
  forall ch s t, ends_with s t -> ends_with (String ch s) t.
Proof. intros ch s t [prefix ->]. exists (String ch prefix). reflexivity. Qed.

Lemma ends_with_append :
  forall a s t, ends_with s t -> ends_with (String.append a s) t.
Proof.
  intros a s t [prefix ->]. exists (String.append a prefix).
  symmetry. apply string_append_assoc.
Qed.

Lemma carries_here :
  forall to' subject' template' key s ps t,
    ends_with s t ->
    carries (mkMail to' subject' template' ((key, JString s) :: ps)) t.
Proof.
  intros to' subject' template' key s ps t H. exists key, s.
  split; [left; reflexivity | exact H].
Qed.

Lemma carries_later :
  forall to' subject' template' p ps t,
    carries (mkMail to' subject' template' ps) t ->
    carries (mkMail to' subject' template' (p :: ps)) t.
Proof.
  intros to' subject' template' p ps t [key [s [Hin H]]]. exists key, s.
  split; [right; exact Hin | exact H].
Qed.

(** Finds the parameter of the mail that ends with the token. *)
Ltac carried :=
  repeat first
    [ solve [ apply carries_here;
              repeat first [ apply ends_with_refl
                           | apply ends_with_String
                           | apply ends_with_append ] ]
    | apply carries_later ].

(** X7. No call sends more than one mail.  When a call sends one, the
    mail is the last collaborator call it makes, and the call just before
    it is the update that stores a token, the very token the mail carries:
    nothing is mailed before it is persisted. *)
Theorem mail_follows_its_write :
  forall (svc : Services) (c : Call) (w : World),
    let r := invoke svc c w in
    (List.length (mails (trace r)) <= 1)%nat
    /\ forall m,
        In m (mails (trace r)) ->
        exists before e t,
          trace r = before ++ [e; EvSendMail m]
          /\ stores_token e t
          /\ carries m t.
Proof.
  intros svc c w r. subst r. destruct c; every_branch;
    (split; [cbn; lia|]); intros mail Hin; cbn in Hin;
    try contradiction;
    destruct Hin as [<-|[]];
    match goal with
    | |- exists before e t, ?tr = _ /\ _ =>
        exists (removelast (removelast tr));
        exists (last (removelast tr) EvGenerateToken);
        eexists;
        split; [reflexivity|];
        split;
        [ cbn [last removelast stores_token];
          first [ exists VerifyEmail; reflexivity
                | exists MagicLink; reflexivity
                | exists ResetPassword; reflexivity
                | reflexivity ]
        | solve [carried] ]
    end.
Qed.

(** ** What the calls leave alone *)

Lemma email_assign : forall a u, email (assign a u) = email u.
Proof. intros [] u; destruct u; try reflexivity; destruct s; reflexivity. Qed.

Lemma email_apply_patch : forall fields u, email (apply_patch fields u) = email u.
Proof.
  induction fields as [|a fields IH]; intro u; cbn [apply_patch].
  - reflexivity.
  - rewrite IH. apply email_assign.
Qed.

Lemma created_app : forall t t', created (t ++ t') = created t ++ created t'.
Proof.
  induction t as [|e t IH]; intro t'; [reflexivity|].
  destruct e; cbn [created app]; rewrite ?IH; reflexivity.
Qed.

Section Rows.

Variable R : User -> User -> Prop.
Hypothesis R_refl : forall u, R u u.
Hypothesis R_trans : forall u v x, R u v -> R v x -> R u x.

Lemma rows_kept :
  forall us, Forall2 (fun u u' => email u' = email u /\ R u u') us us.
Proof.
  induction us as [|u us IH]; constructor; [split|]; auto.
Qed.

Lemma rows_evolve_same :
  forall w w', users w' = users w -> rows_evolve R [] w w'.
Proof.
  intros w w' H. exists (users w), []. rewrite H, app_nil_r.
  split; [reflexivity|]. split; [|reflexivity].
  apply rows_kept.
Qed.

Lemma rows_evolve_then :
  forall t t' w w1 w2,
    rows_evolve R t w w1 -> rows_evolve R t' w1 w2 ->
    rows_evolve R (t ++ t') w w2.
Proof.
  intros t t' w w1 w2 [k1 [a1 [H1 [F1 C1]]]] [k2 [a2 [H2 [F2 C2]]]].
  rewrite H1 in F2.
  apply Forall2_app_inv_l in F2.
  destruct F2 as [k2a [k2b [Fa [Fb ->]]]].
  exists k2a, (k2b ++ a2). split; [rewrite H2, app_assoc; reflexivity|].
  split.
  - clear - F1 Fa R_trans. revert k2a Fa.
    induction F1 as [|u v us vs [Ee Huv] _ IH]; intros k2a Fa.
    + inversion Fa. constructor.
    + inversion Fa as [|v' x vs' xs' [Ee' Hvx] Hrest]; subst.
      constructor; [split; [congruence | eauto] | auto].
  - rewrite map_app, created_app, C2, <- C1. f_equal.
    clear - Fb.
    induction Fb as [|u v us vs [Ee _] _ IH]; [reflexivity|].
    cbn [map]. rewrite IH, Ee. reflexivity.
Qed.

Lemma advances_ret : forall (A : Type) (a : A), advances R (ret a).
Proof. intros A a w. apply rows_evolve_same. reflexivity. Qed.

Lemma advances_throw : forall (A : Type) (e : error), advances R (@throw A e).
Proof. intros A e w. apply rows_evolve_same. reflexivity. Qed.

Lemma advances_defined : forall (A : Type) (o : option A), advances R (defined o).
Proof. intros A [a|]; [apply advances_ret | apply advances_throw]. Qed.

Lemma advances_bind :
  forall (A B : Type) (m : M A) (k : A -> M B),
    advances R m -> (forall a, advances R (k a)) -> advances R (bind m k).
Proof.
  intros A B m k Hm Hk w. unfold bind. specialize (Hm w).
  destruct (m w) as [[a|e] w1 t1]; cbn [res final trace] in *.
  - specialize (Hk a w1).
    destruct (k a w1) as [r w2 t2]; cbn [res final trace] in *.
    eapply rows_evolve_then; eauto.
  - exact Hm.
Qed.

Lemma advances_try_catch :
  forall (A : Type) (m : M A) (h : error -> M A),
    advances R m -> (forall e, advances R (h e)) ->
    advances R (try_catch m h).
Proof.
  intros A m h Hm Hh w. unfold try_catch. specialize (Hm w).
  destruct (m w) as [[a|e] w1 t1]; cbn [res final trace] in *.
  - exact Hm.
  - specialize (Hh e w1).
    destruct (h e w1) as [r w2 t2]; cbn [res final trace] in *.
    eapply rows_evolve_then; eauto.
Qed.

Lemma advances_forget :
  forall (A : Type) (m : M A), advances R m -> advances R (forget m).
Proof.
  intros A m Hm w. unfold forget. specialize (Hm w).
  destruct (m w) as [r w1 t1]. exact Hm.
Qed.

(** A call that leaves the accounts as they are and creates none. *)
Lemma advances_quiet :
  forall (A : Type) (m : M A),
    (forall w, users (final (m w)) = users w /\ created (trace (m w)) = []) ->
    advances R m.
Proof.
  intros A m H w. destruct (H w) as [Hu Hc].
  exists (users w), []. rewrite Hu, app_nil_r, Hc.
  split; [reflexivity|]. split; [|reflexivity].
  apply rows_kept.
Qed.

Lemma advances_create :
  forall email' hash, advances R (create email' hash).
Proof.
  intros email' hash w. cbn [create res final trace].
  exists (users w), [new_user (next_id w) email' hash].
  split; [reflexivity|]. split; [|reflexivity].
  apply rows_kept.
Qed.

Lemma R_apply_patch :
  forall fields,
    (forall a, In a fields -> forall u, R u (assign a u)) ->
    forall u, R u (apply_patch fields u).
Proof.
  induction fields as [|a fields IH]; intros H u; cbn [apply_patch].
  - apply R_refl.
  - apply R_trans with (assign a u).
    + apply H. left. reflexivity.
    + apply IH. intros a' Hin. apply H. right. exact Hin.
Qed.

Lemma advances_update :
  forall i fields,
    (forall a, In a fields -> forall u, R u (assign a u)) ->
    advances R (update i fields).
Proof.
  intros i fields H w. cbn [update res final trace].
  exists (update_rows i fields (users w)), [].
  cbn [users with_users]. rewrite app_nil_r.
  split; [reflexivity|]. split; [|reflexivity].
  unfold update_rows.
  induction (users w) as [|u us IH]; cbn [map]; constructor; [|exact IH].
  destruct (id u =? i).
  - split; [apply email_apply_patch | apply R_apply_patch; exact H].
  - split; [reflexivity | apply R_refl].
Qed.

(** Every flow, walked through call by call: the accounts evolve by [R] as
    soon as each assignment the call may make does. *)
Lemma perform_advances :
  forall svc c,
    (forall a, may_assign c a -> forall u, R u (assign a u)) ->
    advances R (perform svc c).
Proof.
  intros svc c H. destruct c; cbn [perform];
    unfold startLogin, login, signup, sendEmailAddressVerificationEmail,
      verifyEmail, sendSendMagicLinkEmail, loginWithMagicLink,
      sendResetPasswordEmail, changePassword, updatePersonalInformations,
      sendOfficialContactEmailVerificationEmail,
      verifyOfficialContactEmailToken, isExpired_service, isExpired;
    repeat first
      [ progress cbv zeta
      | apply advances_bind; [|intros ?]
      | apply advances_try_catch; [|intros ?]
      | apply advances_forget
      | apply advances_ret
      | apply advances_throw
      | apply advances_defined
      | apply advances_create
      | apply advances_update;
        let a := fresh "a" in
        let Hin := fresh "Hin" in
        intros a Hin; apply H; cbn [In] in Hin;
        repeat (destruct Hin as [<-|Hin]); try contradiction;
        (split; [cbn; tauto | discriminate])
      | apply advances_quiet; intro; split; reflexivity
      | match goal with
        | |- advances _ (if ?b then _ else _) => destruct b
        | |- advances _ (match ?x with _ => _ end) => destruct x
        end ].
Qed.

Lemma perform_all_advances :
  forall svc calls,
    (forall c a, In c calls -> may_assign c a -> forall u, R u (assign a u)) ->
    advances R (perform_all svc calls).
Proof.
  intros svc calls. induction calls as [|c calls IH]; intro H;
    cbn [perform_all].
  - apply advances_ret.
  - apply advances_bind.
    + apply perform_advances. intros a Ha. apply (H c a); [left|]; auto.
    + intros _. apply IH. intros c' a Hin. apply H. right. exact Hin.
Qed.

End Rows.

Lemma same_column_refl : forall c u, same_column c u u.
Proof. intros [] u; reflexivity. Qed.

Lemma same_column_trans :
  forall c u v x, same_column c u v -> same_column c v x -> same_column c u x.
Proof. intros [] u v x; cbn [same_column]; congruence. Qed.

Lemma assign_other_column :
  forall a c u, column_of a <> c -> same_column c u (assign a u).
Proof.
  intros a c u Hne.
  destruct a, c, u;
    try reflexivity; try (contradiction Hne; reflexivity);
    repeat match goal with x : Slot |- _ => destruct x end;
    try reflexivity; contradiction Hne; reflexivity.
Qed.

Lemma rows_evolve_maps :
  forall (R : User -> User -> Prop) t w w',
    rows_evolve R t w w' ->
    exists kept added,
      users w' = kept ++ added
      /\ map email kept = map email (users w)
      /\ Forall2 R (users w) kept
      /\ map email added = created t.
Proof.
  intros R t w w' [kept [added [Hu [F Hc]]]].
  exists kept, added. split; [exact Hu|]. split; [|split; [|exact Hc]].
  - clear - F. induction F as [|u v us vs [Ee _] _ IH]; [reflexivity|].
    cbn [map]. rewrite IH, Ee. reflexivity.
  - clear - F. induction F as [|u v us vs [_ Hr] _ IH]; constructor; auto.
Qed.

(** X8. A column of the accounts changes only through a call that has it
    among the keys it writes: over any sequence of calls none of which
    writes column [col], every account that was there keeps its value of
    [col].  So the password hash changes only through [changePassword], the
    sign-in counter only through [login], and the personal information only
    through [updatePersonalInformations]. *)
Theorem column_changes_only_by_its_calls :
  forall (svc : Services) (calls : list Call) (col : Column) (w : World),
    (forall c, In c calls -> ~ In col (footprint c)) ->
    exists kept added,
      users (final (perform_all svc calls w)) = kept ++ added
      /\ Forall2 (same_column col) (users w) kept.
Proof.
  intros svc calls col w Hcol.
  destruct (rows_evolve_maps _ _ _ _
              (perform_all_advances (same_column col)
                 (same_column_refl col) (same_column_trans col)
                 svc calls
                 (fun c a Hin Hmay u =>
                    assign_other_column a col u
                      (fun Heq =>
                         Hcol c Hin
                           (eq_ind _ (fun x => In x (footprint c))
                                   (proj1 Hmay) _ Heq)))
                 w))
    as [kept [added [Hu [_ [F _]]]]].
  exists kept, added. auto.
Qed.

(** X9. No sequence of calls removes an account, moves it, or changes its id
    or its address: the accounts of before are all there, in order, with
    the same ids and addresses, and the accounts after them are exactly
    those the calls created, one per [create], with the address given. *)
Theorem accounts_persist :
  forall (svc : Services) (calls : list Call) (w : World),
    exists kept added,
      users (final (perform_all svc calls w)) = kept ++ added
      /\ map id kept = map id (users w)
      /\ map email kept = map email (users w)
      /\ map email added = created (trace (perform_all svc calls w)).
Proof.
  intros svc calls w.
  destruct (rows_evolve_maps _ _ _ _
              (perform_all_advances (fun u u' => id u' = id u)
                 (fun u => eq_refl)
                 (fun u v x Huv Hvx => eq_trans Hvx Huv)
                 svc calls
                 (fun c a _ _ u => id_assign a u)
                 w))
    as [kept [added [Hu [He [F Hc]]]]].
  exists kept, added. split; [exact Hu|]. split; [|split; assumption].
  clear - F. induction F as [|u v us vs Hid _ IH]; [reflexivity|].
  cbn [map]. rewrite IH, Hid. reflexivity.
Qed.

Lemma assign_keeps_verified :
  forall a u,
    a <> Email_verified false ->
    email_verified u = true -> email_verified (assign a u) = true.
Proof.
  intros a u Hne Hv.
  destruct a as [v| | | |s v|s v| | | |], u; cbn in *; try exact Hv;
    try (destruct s; exact Hv).
  destruct v; [reflexivity | contradiction Hne; reflexivity].
Qed.

(** X10. A verification is never taken back: over any sequence of calls, an
    account whose address was verified still has it verified. *)
Theorem verified_stays_verified :
  forall (svc : Services) (calls : list Call) (w : World),
    exists kept added,
      users (final (perform_all svc calls w)) = kept ++ added
      /\ Forall2 (fun u u' => email_verified u = true ->
                              email_verified u' = true)
                 (users w) kept.
Proof.
  intros svc calls w.
  destruct (rows_evolve_maps _ _ _ _
              (perform_all_advances
                 (fun u u' => email_verified u = true ->
                              email_verified u' = true)
                 (fun u H => H)
                 (fun u v x Huv Hvx H => Hvx (Huv H))
                 svc calls
                 (fun c a _ Hmay u => assign_keeps_verified a u (proj2 Hmay))
                 w))
    as [kept [added [Hu [_ [F _]]]]].
  exists kept, added. auto.
Qed.

(** ** Addresses stay unique *)

Lemma perform_invoke :
  forall svc c w,
    trace (perform svc c w) = trace (invoke svc c w)
    /\ final (perform svc c w) = final (invoke svc c w).
Proof.
  intros svc c w. destruct c; cbn [perform invoke]; unfold forget, void;
    match goal with
    | |- context [match ?x with _ => _ end] => destruct x as [[v|e] w1 t1]
    end; split; reflexivity.
Qed.

Lemma create_only_after_lookup :
  forall svc c w,
    created (trace (invoke svc c w)) = []
    \/ exists e, created (trace (invoke svc c w)) = [e]
                 /\ user_by_email e (users w) = None.
Proof.
  intros svc c w. destruct c; every_branch;
    try (left; reflexivity);
    (right; eexists; split;
     [ reflexivity
     | first [ assumption
             | match goal with
               | H : negb (isEmpty ?x) = false |- ?x = None =>
                   destruct x; [discriminate H | reflexivity]
               end ] ]).
Qed.

Lemma user_by_email_none :
  forall e us, user_by_email e us = None -> ~ In e (map email us).
Proof.
  intros e us Hnone Hin. apply in_map_iff in Hin.
  destruct Hin as [u [He Hu]]. unfold user_by_email in Hnone.
  pose proof (find_none _ _ Hnone u Hu) as Hf. cbn beta in Hf.
  rewrite He, String.eqb_refl in Hf. discriminate Hf.
Qed.

Lemma NoDup_snoc :
  forall (l : list string) e, NoDup l -> ~ In e l -> NoDup (l ++ [e]).
Proof.
  intros l e Hl He. induction Hl as [|x l Hx Hl IH]; cbn [app].
  - constructor; [intros []|constructor].
  - constructor.
    + intro Hin. apply in_app_or in Hin. destruct Hin as [Hin|[<-|[]]].
      * contradiction.
      * apply He. left. reflexivity.
    + apply IH. intro Hin. apply He. right. exact Hin.
Qed.

Lemma perform_keeps_addresses_unique :
  forall svc c w,
    NoDup (map email (users w)) ->
    NoDup (map email (users (final (perform svc c w)))).
Proof.
  intros svc c w Hnd.
  destruct (rows_evolve_maps _ _ _ _
              (perform_advances (fun _ _ => True) (fun _ => I)
                 (fun _ _ _ _ _ => I) svc c (fun _ _ _ => I) w))
    as [kept [added [Hu [He [_ Hc]]]]].
  destruct (perform_invoke svc c w) as [Ht _]. rewrite Ht in Hc.
  rewrite Hu, map_app, He, Hc.
  destruct (create_only_after_lookup svc c w) as [-> | [e [-> Hnone]]].
  - rewrite app_nil_r. exact Hnd.
  - apply NoDup_snoc; [exact Hnd | apply user_by_email_none; exact Hnone].
Qed.

Lemma perform_returns : forall svc c w, res (perform svc c w) = Ok tt.
Proof.
  intros svc c w. destruct c; cbn [perform]; unfold forget;
    match goal with
    | |- context [match ?x with _ => _ end] => destruct x as [r w1 t1]
    end; reflexivity.
Qed.

Lemma perform_all_cons :
  forall svc c calls w,
    final (perform_all svc (c :: calls) w)
    = final (perform_all svc calls (final (perform svc c w))).
Proof.
  intros svc c calls w. cbn [perform_all]. unfold bind.
  pose proof (perform_returns svc c w) as Hr.
  destruct (perform svc c w) as [r w1 t1]. cbn [res final] in *. subst r.
  destruct (perform_all svc calls w1) as [r' w2 t2]. reflexivity.
Qed.

(** X11. The flows never give two accounts the same address: [signup] and
    [sendSendMagicLinkEmail], the only flows that create an account, do so
    only after their lookup by address found none.  So if the addresses are
    pairwise distinct, they still are after any sequence of calls. *)
Theorem addresses_stay_unique :
  forall (svc : Services) (calls : list Call) (w : World),
    NoDup (map email (users w)) ->
    NoDup (map email (users (final (perform_all svc calls w)))).
Proof.
  intros svc calls. induction calls as [|c calls IH]; intros w Hnd.
  - exact Hnd.
  - rewrite perform_all_cons. apply IH.
    apply perform_keeps_addresses_unique. exact Hnd.
Qed.

(** ** Issue, then consume *)

Lemma find_found :
  forall (A : Type) (f : A -> bool) l x,
    In x l -> f x = true -> exists y, find f l = Some y.
Proof.
  intros A f l x Hin Hx. induction l as [|a l IH]; [contradiction|].
  cbn [find]. destruct (f a) eqn:Ha; [eauto|].
  destruct Hin as [->|Hin]; [congruence | auto].
Qed.

Lemma find_nothing :
  forall (A : Type) (f : A -> bool) l,
    (forall x, In x l -> f x = false) -> find f l = None.
Proof.
  intros A f l H. induction l as [|a l IH]; [reflexivity|].
  cbn [find]. rewrite (H a (or_introl eq_refl)).
  apply IH. intros x Hx. apply H. right. exact Hx.
Qed.

Lemma find_snoc :
  forall (A : Type) (f : A -> bool) l x,
    find f l = None -> f x = true -> find f (l ++ [x]) = Some x.
Proof.
  intros A f l x Hnone Hx. induction l as [|a l IH]; cbn [find app] in *.
  - rewrite Hx. reflexivity.
  - destruct (f a); [discriminate Hnone | auto].
Qed.

(** X12. An account that [signup] has just created can sign in: [login]
    with the same address and password returns a value, as long as the
    password verifier accepts a password against its own hash; a password
    the verifier refuses is rejected; and a second [signup] with that
    address is refused with [email_unavailable], whatever the password. *)
Theorem signup_then_login :
  forall (svc : Services) (email' password : string) (w : World),
    user_by_email email' (users w) = None ->
    svc_isPasswordSecure svc password = true ->
    svc_validatePassword svc password (Some (svc_hashPassword svc password))
    = true ->
    let w1 := final (signup svc email' password w) in
    (exists v, res (login svc email' password w1) = Ok v)
    /\ (forall password',
           svc_validatePassword svc password'
             (Some (svc_hashPassword svc password)) = false ->
           rejected (login svc email' password' w1) w1 invalid_credentials)
    /\ (forall password',
           rejected (signup svc email' password' w1) w1 email_unavailable).
Proof.
  intros svc email' password w Hnone Hsec Hval w1. subst w1.
  rewrite (signup_created _ _ _ _ Hnone Hsec). cbn [final].
  set (u := new_user (next_id w) email'
                     (Some (svc_hashPassword svc password))).
  assert (Hfind : user_by_email email' (users (with_new_user u w)) = Some u).
  { cbn [users with_new_user]. unfold user_by_email in *.
    apply find_snoc; [exact Hnone|]. cbn. apply String.eqb_refl. }
  split; [|split].
  - rewrite (login_verified _ _ _ _ _ Hfind Hval). eexists. reflexivity.
  - intros password' Hno.
    rewrite (login_wrong_password _ _ _ _ _ Hfind Hno). rejects.
  - intros password'. rewrite (signup_taken _ _ _ _ _ Hfind). rejects.
Qed.

Lemma issued_token_lookup :
  forall s token us i fields ms,
    token <> "" ->
    (forall u, token_of s (apply_patch fields u) = Some token
               /\ sent_at_of s (apply_patch fields u) = JDate ms) ->
    (exists u, In u us /\ id u = i) ->
    (forall u, In u us -> token_of s u = Some token -> id u = i) ->
    exists u',
      user_by_token s (Some token) (update_rows i fields us) = Some u'
      /\ id u' = i /\ sent_at_of s u' = JDate ms.
Proof.
  intros s token us i fields ms Hne Hpatch [u [Hin Hid]] Hfresh.
  assert (Hfalsy : falsy (Some token) = false).
  { cbn [falsy]. apply String.eqb_neq. exact Hne. }
  unfold user_by_token. rewrite Hfalsy.
  destruct (find_found _
              (fun u => option_string_eqb (token_of s u) (Some token))
              (update_rows i fields us) (apply_patch fields u))
    as [u' Hu'].
  - pose proof (in_update_rows i fields us u Hin) as H.
    rewrite Hid, Z.eqb_refl in H. exact H.
  - apply option_string_eqb_eq. apply Hpatch.
  - exists u'. split; [exact Hu'|].
    apply find_some in Hu'. destruct Hu' as [Hin' Htok].
    apply option_string_eqb_eq in Htok.
    unfold update_rows in Hin'. apply in_map_iff in Hin'.
    destruct Hin' as [u0 [Heq Hin0]].
    destruct (id u0 =? i) eqn:Hi.
    + subst u'. apply Z.eqb_eq in Hi.
      split; [rewrite id_apply_patch; exact Hi | apply Hpatch].
    + subst u'. apply Z.eqb_neq in Hi.
      contradiction Hi. apply Hfresh; assumption.
Qed.

(** X13. A reset-password token does its round trip.  After
    [sendResetPasswordEmail] for a known account, [changePassword] with the
    token that was issued succeeds, provided the token is not empty, no
    other account holds the same token, the clock has advanced by sixty
    minutes at most, and the new password is secure.  Its one update stores
    the hash of the new password on that account and clears the token and
    its timestamp. *)
Theorem reset_password_round_trip :
  forall (svc : Services) (email' password : string) (w : World)
         (user : User),
    user_by_email email' (users w) = Some user ->
    svc_token svc (draws w) <> "" ->
    (forall u, In u (users w) ->
               reset_password_token u = Some (svc_token svc (draws w)) ->
               id u = id user) ->
    svc_clock svc (S (reads w)) - svc_clock svc (reads w) <= 60 * 60000 ->
    svc_isPasswordSecure svc password = true ->
    let token := svc_token svc (draws w) in
    let w1 := final (sendResetPasswordEmail svc email' w) in
    let r := changePassword svc (Some token) password w1 in
    (exists v, res r = Ok v)
    /\ writes (trace r) =
       [EvUpdate (id user)
                 [Encrypted_password (svc_hashPassword svc password);
                  Reset_password_token None;
                  Reset_password_sent_at JNull]]
    /\ forall u, In u (users (final r)) -> id u = id user ->
                 encrypted_password u = Some (svc_hashPassword svc password)
                 /\ reset_password_token u = None
                 /\ reset_password_sent_at u = JNull.
Proof.
  intros svc email' password w user Hfind Hne Hfresh Hclock Hsec token w1 r.
  subst r.
  assert (Hw1 :
            w1 = with_users
                   (update_rows (id user)
                      [Reset_password_token (Some token);
                       Reset_password_sent_at
                         (JIsoString (svc_clock svc (reads w)))]
                      (users w))
                   (tick (drawn w))).
  { subst w1 token. run_flow. rewrite Hfind. reflexivity. }
  destruct (issued_token_lookup ResetPassword token (users w) (id user)
              [Reset_password_token (Some token);
               Reset_password_sent_at (JIsoString (svc_clock svc (reads w)))]
              (svc_clock svc (reads w)) Hne)
    as [u' [Hlook [Hid Hsent]]].
  - intro u; destruct u; split; reflexivity.
  - exists user. split; [eapply user_by_email_In; eauto | reflexivity].
  - exact Hfresh.
  - rewrite changePassword_run.
    assert (Hfalsy : falsy (Some token) = false).
    { cbn [falsy]. apply String.eqb_neq. exact Hne. }
    rewrite Hfalsy. cbv zeta. rewrite Hw1. cbn [users with_users].
    rewrite Hlook. cbn [sent_at_of] in Hsent. rewrite Hsent.
    rewrite isExpired_run. cbn [res final reads with_users tick drawn].
    unfold RESET_PASSWORD_TOKEN_EXPIRATION_DURATION_IN_MINUTES.
    destruct (Z.gtb_spec (svc_clock svc (S (reads w))
                          - svc_clock svc (reads w)) (60 * 60000))
      as [Hgt|_]; [lia|].
    rewrite Hsec. cbn [res final trace writes filter is_write].
    rewrite Hid.
    split; [eexists; reflexivity|]. split; [reflexivity|].
    intros u Hin Hu. cbn [users with_users] in Hin.
    destruct (update_rows_inv _ _ _ _ Hin Hu) as [u0 [_ [_ ->]]].
    destruct u0; repeat split.
Qed.

(** ** A consumed token is dead *)

Lemma verifyEmail_run :
  forall svc token w,
    verifyEmail svc token w =
    let looked := EvFindByVerifyEmailToken token in
    match user_by_token VerifyEmail token (users w) with
    | None => mkRun (Throw invalid_token) w [looked]
    | Some user =>
        let x := isExpired svc (verify_email_sent_at user)
                   VERIFY_EMAIL_TOKEN_EXPIRATION_DURATION_IN_MINUTES w in
        match res x with
        | Ok true => mkRun (Throw invalid_token) (final x) [looked]
        | Ok false =>
            let fields := [Email_verified true;
                           Verify_email_token None;
                           Verify_email_sent_at JNull] in
            let us := update_rows (id user) fields (users (final x)) in
            mkRun (Ok (user_by_id (id user) us)) (with_users us (final x))
                  [looked; EvUpdate (id user) fields]
        | Throw e => mkRun (Throw e) (final x) [looked]
        end
    end.
Proof.
  intros svc token w. run_flow.
  destruct (user_by_token VerifyEmail token (users w)) as [user|];
    [|reflexivity].
  cbn [res final trace app].
  pose proof (isExpired_trace svc (verify_email_sent_at user)
                VERIFY_EMAIL_TOKEN_EXPIRATION_DURATION_IN_MINUTES w) as Ht.
  destruct (isExpired svc (verify_email_sent_at user)
              VERIFY_EMAIL_TOKEN_EXPIRATION_DURATION_IN_MINUTES w)
    as [[[|]|e] w1 t1]; cbn [trace] in Ht; subst t1; reflexivity.
Qed.

Lemma loginWithMagicLink_run :
  forall svc token w,
    loginWithMagicLink svc token w =
    if falsy token then mkRun (Throw invalid_magic_link) w []
    else
      let looked := EvFindByMagicLinkToken token in
      match user_by_token MagicLink token (users w) with
      | None => mkRun (Throw invalid_magic_link) w [looked]
      | Some user =>
          let x := isExpired svc (magic_link_sent_at user)
                     MAGIC_LINK_TOKEN_EXPIRATION_DURATION_IN_MINUTES w in
          match res x with
          | Ok true => mkRun (Throw invalid_magic_link) (final x) [looked]
          | Ok false =>
              let fields := [Email_verified true;
                             Magic_link_token None;
                             Magic_link_sent_at JNull] in
              let us := update_rows (id user) fields (users (final x)) in
              mkRun (Ok (user_by_id (id user) us)) (with_users us (final x))
                    [looked; EvUpdate (id user) fields]
          | Throw e => mkRun (Throw e) (final x) [looked]
          end
      end.
Proof.
  intros svc token w. run_flow.
  destruct (falsy token); [reflexivity|]. cbn [res final trace app].
  destruct (user_by_token MagicLink token (users w)) as [user|];
    [|reflexivity].
  cbn [res final trace app].
  pose proof (isExpired_trace svc (magic_link_sent_at user)
                MAGIC_LINK_TOKEN_EXPIRATION_DURATION_IN_MINUTES w) as Ht.
  destruct (isExpired svc (magic_link_sent_at user)
              MAGIC_LINK_TOKEN_EXPIRATION_DURATION_IN_MINUTES w)
    as [[[|]|e] w1 t1]; cbn [trace] in Ht; subst t1; reflexivity.
Qed.

Lemma clearing_patch_clears :
  forall s v u,
    token_of s (apply_patch [v; Token s None; Sent_at s JNull] u) = None.
Proof. intros s v u. destruct v, s, u; try reflexivity; destruct s0; reflexivity. Qed.

Lemma consumed_token_dead :
  forall s token w w' user fields,
    falsy token = false ->
    held_by_one s token w ->
    user_by_token s token (users w) = Some user ->
    (forall u, token_of s (apply_patch fields u) = None) ->
    users w' = users w ->
    user_by_token s token (update_rows (id user) fields (users w')) = None.
Proof.
  intros s token w w' user fields Hfalsy Hone Hfind Hclear Hsame.
  rewrite Hsame. unfold user_by_token in *. rewrite Hfalsy in Hfind |- *.
  apply find_some in Hfind. destruct Hfind as [Hin Htok].
  apply option_string_eqb_eq in Htok.
  apply find_nothing. intros u Hu.
  unfold update_rows in Hu. apply in_map_iff in Hu.
  destruct Hu as [u0 [Heq Hin0]].
  destruct (option_string_eqb (token_of s u) token) eqn:Heqb;
    [|reflexivity].
  apply option_string_eqb_eq in Heqb.
  destruct (id u0 =? id user) eqn:Hi; subst u.
  - rewrite Hclear in Heqb. rewrite <- Heqb in Hfalsy.
    discriminate Hfalsy.
  - apply Z.eqb_neq in Hi. contradiction Hi.
    apply (Hone u0 user); assumption.
Qed.

Lemma verifyEmail_success :
  forall svc token w v,
    res (verifyEmail svc token w) = Ok v ->
    exists user,
      user_by_token VerifyEmail token (users w) = Some user
      /\ users (final (verifyEmail svc token w))
         = update_rows (id user)
             [Email_verified true; Verify_email_token None;
              Verify_email_sent_at JNull] (users w).
Proof.
  intros svc token w v Hres. rewrite verifyEmail_run in Hres |- *.
  cbv zeta in *.
  destruct (user_by_token VerifyEmail token (users w)) as [user|];
    [|discriminate Hres].
  pose proof (isExpired_same_store svc (verify_email_sent_at user)
                VERIFY_EMAIL_TOKEN_EXPIRATION_DURATION_IN_MINUTES w)
    as [Husers _].
  destruct (res (isExpired svc (verify_email_sent_at user)
                   VERIFY_EMAIL_TOKEN_EXPIRATION_DURATION_IN_MINUTES w))
    as [[|]|e]; try discriminate Hres.
  exists user. cbn [final users with_users]. rewrite Husers. auto.
Qed.

Lemma loginWithMagicLink_success :
  forall svc token w v,
    res (loginWithMagicLink svc token w) = Ok v ->
    exists user,
      falsy token = false
      /\ user_by_token MagicLink token (users w) = Some user
      /\ users (final (loginWithMagicLink svc token w))
         = update_rows (id user)
             [Email_verified true; Magic_link_token None;
              Magic_link_sent_at JNull] (users w).
Proof.
  intros svc token w v Hres. rewrite loginWithMagicLink_run in Hres |- *.
  cbv zeta in *.
  destruct (falsy token); [discriminate Hres|].
  destruct (user_by_token MagicLink token (users w)) as [user|];
    [|discriminate Hres].
  pose proof (isExpired_same_store svc (magic_link_sent_at user)
                MAGIC_LINK_TOKEN_EXPIRATION_DURATION_IN_MINUTES w)
    as [Husers _].
  destruct (res (isExpired svc (magic_link_sent_at user)
                   MAGIC_LINK_TOKEN_EXPIRATION_DURATION_IN_MINUTES w))
    as [[|]|e]; try discriminate Hres.
  exists user. cbn [final users with_users]. rewrite Husers. auto.
Qed.

Lemma changePassword_success :
  forall svc token password w v,
    res (changePassword svc token password w) = Ok v ->
    exists user,
      falsy token = false
      /\ user_by_token ResetPassword token (users w) = Some user
      /\ svc_isPasswordSecure svc password = true
      /\ users (final (changePassword svc token password w))
         = update_rows (id user)
             [Encrypted_password (svc_hashPassword svc password);
              Reset_password_token None; Reset_password_sent_at JNull]
             (users w).
Proof.
  intros svc token password w v Hres.
  rewrite changePassword_run in Hres |- *. cbv zeta in *.
  destruct (falsy token); [discriminate Hres|].
  destruct (user_by_token ResetPassword token (users w)) as [user|];
    [|discriminate Hres].
  pose proof (isExpired_same_store svc (reset_password_sent_at user)
                RESET_PASSWORD_TOKEN_EXPIRATION_DURATION_IN_MINUTES w)
    as [Husers _].
  destruct (res (isExpired svc (reset_password_sent_at user)
                   RESET_PASSWORD_TOKEN_EXPIRATION_DURATION_IN_MINUTES w))
    as [[|]|e]; try discriminate Hres.
  destruct (svc_isPasswordSecure svc password); [|discriminate Hres].
  exists user. cbn [final users with_users]. rewrite Husers. auto.
Qed.

(** X14. A token works once.  When [verifyEmail], [loginWithMagicLink] or
    [changePassword] has succeeded with a token that only one account held
    (for [verifyEmail], a token that is not empty), the same token given
    again is rejected with the flow's invalid-token error, and nothing is
    written. *)
Theorem token_single_use :
  forall (svc : Services) (w : World),
    (forall token v,
        falsy token = false ->
        held_by_one VerifyEmail token w ->
        res (verifyEmail svc token w) = Ok v ->
        let w1 := final (verifyEmail svc token w) in
        rejected (verifyEmail svc token w1) w1 invalid_token)
    /\ (forall token v,
           held_by_one MagicLink token w ->
           res (loginWithMagicLink svc token w) = Ok v ->
           let w1 := final (loginWithMagicLink svc token w) in
           rejected (loginWithMagicLink svc token w1) w1 invalid_magic_link)
    /\ (forall token password password' v,
           held_by_one ResetPassword token w ->
           res (changePassword svc token password w) = Ok v ->
           let w1 := final (changePassword svc token password w) in
           rejected (changePassword svc token password' w1) w1 invalid_token).
Proof.
  intros svc w. split; [|split].
  - intros token v Hfalsy Hone Hres.
    destruct (verifyEmail_success _ _ _ _ Hres) as [user [Hfind Hus]].
    generalize dependent (final (verifyEmail svc token w)).
    intros w1 Hus. cbv zeta.
    rewrite verifyEmail_run. cbv zeta. rewrite Hus.
    rewrite (consumed_token_dead VerifyEmail token w w user _
               Hfalsy Hone Hfind (clearing_patch_clears _ _) eq_refl).
    rejects.
  - intros token v Hone Hres.
    destruct (loginWithMagicLink_success _ _ _ _ Hres)
      as [user [Hfalsy [Hfind Hus]]].
    generalize dependent (final (loginWithMagicLink svc token w)).
    intros w1 Hus. cbv zeta.
    rewrite loginWithMagicLink_run. rewrite Hfalsy. cbv zeta. rewrite Hus.
    rewrite (consumed_token_dead MagicLink token w w user _
               Hfalsy Hone Hfind (clearing_patch_clears _ _) eq_refl).
    rejects.
  - intros token password password' v Hone Hres.
    destruct (changePassword_success _ _ _ _ _ Hres)
      as [user [Hfalsy [Hfind [_ Hus]]]].
    generalize dependent (final (changePassword svc token password w)).
    intros w1 Hus. cbv zeta.
    rewrite changePassword_run. rewrite Hfalsy. cbv zeta. rewrite Hus.
    rewrite (consumed_token_dead ResetPassword token w w user _
               Hfalsy Hone Hfind (clearing_patch_clears _ _) eq_refl).
    rejects.
Qed.

(** ** The official contact e-mail, from issue to refusal *)

Lemma m_id_apply_link_patch :
  forall fields m, m_id (apply_link_patch fields m) = m_id m.
Proof.
  induction fields as [|a fields IH]; intro m; cbn [apply_link_patch].
  - reflexivity.
  - rewrite IH. destruct a, m; reflexivity.
Qed.

Lemma m_organization_id_apply_link_patch :
  forall fields m,
    m_organization_id (apply_link_patch fields m) = m_organization_id m.
Proof.
  induction fields as [|a fields IH]; intro m; cbn [apply_link_patch].
  - reflexivity.
  - rewrite IH. destruct a, m; reflexivity.
Qed.

Lemma find_updated_member :
  forall o i fields ms,
    find (fun m => m_id m =? i) (users_of o (update_links o i fields ms))
    = option_map (apply_link_patch fields)
                 (find (fun m => m_id m =? i) (users_of o ms)).
Proof.
  intros o i fields ms. unfold users_of, update_links.
  induction ms as [|m ms IH]; [reflexivity|].
  cbn [map filter].
  destruct (is_link o i m) eqn:Hl.
  - rewrite m_organization_id_apply_link_patch.
    unfold is_link in Hl. apply andb_prop in Hl. destruct Hl as [Ho Hi].
    rewrite Ho. cbn [find]. rewrite m_id_apply_link_patch, Hi.
    reflexivity.
  - destruct (m_organization_id m =? o) eqn:Ho; [|exact IH].
    cbn [find]. unfold is_link in Hl. rewrite Ho in Hl. cbn [andb] in Hl.
    rewrite Hl. exact IH.
Qed.

Lemma verifyOfficialContactEmailToken_success :
  forall svc user_id organization_id token w v,
    res (verifyOfficialContactEmailToken svc user_id organization_id token w)
    = Ok v ->
    let w1 := final (verifyOfficialContactEmailToken
                       svc user_id organization_id token w) in
    exists user organization,
      find (fun m => m_id m =? user_id)
           (users_of organization_id (members w)) = Some user
      /\ organization_by_id organization_id (organizations w)
         = Some organization
      /\ organizations w1 = organizations w
      /\ members w1 =
         update_links organization_id user_id
           [Needs_official_contact_email_verification false;
            Official_contact_email_verification_token None;
            Official_contact_email_verification_sent_at JNull]
           (members w).
Proof.
  intros svc user_id organization_id token w v. cbv zeta. run_flow.
  destruct (find (fun m => m_id m =? user_id)
                 (users_of organization_id (members w))) as [user|];
    [|discriminate].
  destruct (organization_by_id organization_id (organizations w))
    as [organization|]; [|discriminate].
  cbn [res final trace app].
  destruct (option_string_eqb
              (official_contact_email_verification_token user) (Some token));
    [|discriminate].
  cbn [res final trace app negb].
  pose proof (isExpired_same_store
                svc (official_contact_email_verification_sent_at user)
                OFFICIAL_CONTACT_EMAIL_VERIFICATION_TOKEN_EXPIRATION_DURATION_IN_MINUTES
                w) as [_ [Hm [Ho _]]].
  destruct (isExpired svc
              (official_contact_email_verification_sent_at user)
              OFFICIAL_CONTACT_EMAIL_VERIFICATION_TOKEN_EXPIRATION_DURATION_IN_MINUTES
              w) as [[[|]|e] w1 t1]; cbn [res final trace] in *;
    try discriminate.
  intros _. exists user, organization.
  cbn [organizations members with_members]. rewrite Hm. auto.
Qed.

(** X15. An official contact e-mail is verified once.  After
    [verifyOfficialContactEmailToken] has succeeded for a member, the same
    call is rejected with [InvalidTokenError] whatever the token, and
    [sendOfficialContactEmailVerificationEmail] for that member is refused
    with [OfficialContactEmailVerificationNotNeededError], before the
    directory is asked; neither writes anything. *)
Theorem official_contact_verified_once :
  forall (svc : Services) (user_id organization_id : Z) (token : string)
         (w : World) (v : option Member),
    res (verifyOfficialContactEmailToken svc user_id organization_id token w)
    = Ok v ->
    let w1 := final (verifyOfficialContactEmailToken
                       svc user_id organization_id token w) in
    (forall token',
        rejected (verifyOfficialContactEmailToken
                    svc user_id organization_id token' w1)
                 w1 InvalidTokenError)
    /\ (forall checkBeforeSend,
           rejected (sendOfficialContactEmailVerificationEmail
                       svc user_id organization_id checkBeforeSend w1)
                    w1 OfficialContactEmailVerificationNotNeededError
           /\ trace (sendOfficialContactEmailVerificationEmail
                       svc user_id organization_id checkBeforeSend w1)
              = [EvGetUsers organization_id;
                 EvFindOrganizationById organization_id]).
Proof.
  intros svc user_id organization_id token w v Hres.
  destruct (verifyOfficialContactEmailToken_success _ _ _ _ _ _ Hres)
    as [user [organization [Huser [Horg [Ho Hm]]]]].
  generalize dependent
    (final (verifyOfficialContactEmailToken
              svc user_id organization_id token w)).
  intros w1 Ho Hm. cbv zeta.
  assert (Hfind :
            find (fun m => m_id m =? user_id)
                 (users_of organization_id (members w1))
            = Some (apply_link_patch
                      [Needs_official_contact_email_verification false;
                       Official_contact_email_verification_token None;
                       Official_contact_email_verification_sent_at JNull]
                      user)).
  { rewrite Hm, find_updated_member, Huser. reflexivity. }
  split.
  - intro token'. run_flow. rewrite Hfind, Ho, Horg.
    destruct user; cbn. rejects.
  - intro checkBeforeSend. run_flow. rewrite Hfind, Ho, Horg.
    destruct user; cbn. split; [rejects | reflexivity].
Qed.

Lemma sendOfficialContactEmailVerificationEmail_stores :
  forall svc w user_id organization_id checkBeforeSend user organization
         contact,
    find (fun m => m_id m =? user_id)
         (users_of organization_id (members w)) = Some user ->
    organization_by_id organization_id (organizations w)
    = Some organization ->
    needs_official_contact_email_verification user = true ->
    svc_getContactEmail svc (cached_code_officiel_geographique organization)
    = Some contact ->
    checkBeforeSend = false
    \/ res (isExpired svc (official_contact_email_verification_sent_at user)
              OFFICIAL_CONTACT_EMAIL_VERIFICATION_TOKEN_EXPIRATION_DURATION_IN_MINUTES
              w) = Ok true ->
    let w1 := final (sendOfficialContactEmailVerificationEmail
                       svc user_id organization_id checkBeforeSend w) in
    organizations w1 = organizations w
    /\ members w1 =
       update_links organization_id user_id
         [Official_contact_email_verification_token
            (Some (svc_diceware_password svc (draws w)));
          Official_contact_email_verification_sent_at
            (JDate (last_reading svc w1))]
         (members w).
Proof.
  intros svc w user_id organization_id checkBeforeSend user organization
         contact Huser Horg Hneeds Hcontact Hissue.
  pose proof (isExpired_same_store svc
                (official_contact_email_verification_sent_at user)
                OFFICIAL_CONTACT_EMAIL_VERIFICATION_TOKEN_EXPIRATION_DURATION_IN_MINUTES
                w)
    as [_ [Hm [Ho [_ Hdraws]]]].
  assert (Hskip :
            checkBeforeSend = false
            \/ checkBeforeSend = true
               /\ res (isExpired svc
                         (official_contact_email_verification_sent_at user)
                         OFFICIAL_CONTACT_EMAIL_VERIFICATION_TOKEN_EXPIRATION_DURATION_IN_MINUTES
                         w) = Ok true).
  { destruct checkBeforeSend; [right|left; reflexivity].
    destruct Hissue as [H|H]; [discriminate H|auto]. }
  clear Hissue. cbv zeta. unfold last_reading.
  destruct Hskip as [-> | [-> He]];
    run_flow; rewrite Huser, Horg; cbn [res final trace app];
    rewrite Hneeds; cbn [res final trace app negb]; rewrite Hcontact;
    cbn [res final trace app]; try expiry He;
    rewrite ?Hdraws;
    cbn [res final trace app negb reads tick drawn with_members Nat.pred
         members organizations];
    rewrite ?Hm, ?Ho; split; reflexivity.
Qed.

(** X16. The token of an official contact e-mail does its round trip.  When
    [sendOfficialContactEmailVerificationEmail] has issued a token (its
    guards passed, and the flag is unset or the stored timestamp is absent
    or expired), [verifyOfficialContactEmailToken] with that token succeeds
    as long as the clock has advanced by sixty minutes at most; its one
    update clears the member's need for verification together with the
    token and its timestamp. *)
Theorem official_contact_round_trip :
  forall (svc : Services) (w : World) (user_id organization_id : Z)
         (checkBeforeSend : bool) (user : Member)
         (organization : Organization) (contact : string),
    find (fun m => m_id m =? user_id)
         (users_of organization_id (members w)) = Some user ->
    organization_by_id organization_id (organizations w)
    = Some organization ->
    needs_official_contact_email_verification user = true ->
    svc_getContactEmail svc (cached_code_officiel_geographique organization)
    = Some contact ->
    checkBeforeSend = false
    \/ res (isExpired svc (official_contact_email_verification_sent_at user)
              OFFICIAL_CONTACT_EMAIL_VERIFICATION_TOKEN_EXPIRATION_DURATION_IN_MINUTES
              w) = Ok true ->
    let w1 := final (sendOfficialContactEmailVerificationEmail
                       svc user_id organization_id checkBeforeSend w) in
    svc_clock svc (reads w1) - last_reading svc w1 <= 60 * 60000 ->
    let r := verifyOfficialContactEmailToken
               svc user_id organization_id
               (svc_diceware_password svc (draws w)) w1 in
    (exists v, res r = Ok v)
    /\ writes (trace r) =
       [EvUpdateUserOrganizationLink organization_id user_id
          [Needs_official_contact_email_verification false;
           Official_contact_email_verification_token None;
           Official_contact_email_verification_sent_at JNull]]
    /\ forall m, In m (members (final r)) ->
                 is_link organization_id user_id m = true ->
                 needs_official_contact_email_verification m = false
                 /\ official_contact_email_verification_token m = None
                 /\ official_contact_email_verification_sent_at m = JNull.
Proof.
  intros svc w user_id organization_id checkBeforeSend user organization
         contact Huser Horg Hneeds Hcontact Hissue.
  destruct (sendOfficialContactEmailVerificationEmail_stores
              svc w user_id organization_id checkBeforeSend user organization
              contact Huser Horg Hneeds Hcontact Hissue) as [Ho Hm].
  generalize dependent
    (final (sendOfficialContactEmailVerificationEmail
              svc user_id organization_id checkBeforeSend w)).
  intros w1 Ho Hm. cbv zeta. intro Hclock.
  assert (Hfind :
            find (fun m => m_id m =? user_id)
                 (users_of organization_id (members w1))
            = Some (apply_link_patch
                      [Official_contact_email_verification_token
                         (Some (svc_diceware_password svc (draws w)));
                       Official_contact_email_verification_sent_at
                         (JDate (last_reading svc w1))]
                      user)).
  { rewrite Hm at 1. rewrite find_updated_member, Huser. reflexivity. }
  run_flow. rewrite Hfind, Ho, Horg.
  destruct user; cbn [apply_link_patch assign_link timestamptz
                      official_contact_email_verification_token
                      official_contact_email_verification_sent_at
                      option_string_eqb res final trace app].
  rewrite String.eqb_refl. cbn [negb]. rewrite isExpired_run.
  unfold OFFICIAL_CONTACT_EMAIL_VERIFICATION_TOKEN_EXPIRATION_DURATION_IN_MINUTES.
  destruct (Z.gtb_spec (svc_clock svc (reads w1) - last_reading svc w1)
                       (60 * 60000)) as [Hgt|_]; [lia|].
  cbn [res final trace app writes filter is_write members with_members tick].
  split; [eexists; reflexivity|]. split; [reflexivity|].
  intros m Hin Hl.
  destruct (update_links_inv _ _ _ _ _ Hin Hl) as [m0 [_ ->]].
  destruct m0; repeat split.
Qed.

(** ** The verification code, from issue to refusal *)

Lemma user_by_email_update_rows :
  forall e i fields us,
    user_by_email e (update_rows i fields us)
    = option_map (fun u => if id u =? i then apply_patch fields u else u)
                 (user_by_email e us).
Proof.
  intros e i fields us. unfold user_by_email, update_rows.
  induction us as [|u us IH]; [reflexivity|].
  cbn [map find].
  assert (He : email (if id u =? i then apply_patch fields u else u)
               = email u).
  { destruct (id u =? i); [apply email_apply_patch | reflexivity]. }
  rewrite He. destruct (String.eqb (email u) e); [reflexivity | exact IH].
Qed.

Lemma sendEmailAddressVerificationEmail_stores :
  forall svc w email' checkBeforeSend user,
    user_by_email email' (users w) = Some user ->
    email_verified user = false ->
    checkBeforeSend = false
    \/ res (isExpired svc (verify_email_sent_at user)
              VERIFY_EMAIL_TOKEN_EXPIRATION_DURATION_IN_MINUTES w) = Ok true ->
    let w1 := final (sendEmailAddressVerificationEmail
                       svc email' checkBeforeSend w) in
    users w1 =
    update_rows (id user)
      [Verify_email_token (Some (svc_pin_token svc (draws w)));
       Verify_email_sent_at (JIsoString (last_reading svc w1))]
      (users w).
Proof.
  intros svc w email' checkBeforeSend user Hfind Hver Hissue.
  pose proof (isExpired_same_store svc (verify_email_sent_at user)
                VERIFY_EMAIL_TOKEN_EXPIRATION_DURATION_IN_MINUTES w)
    as [Hu [_ [_ [_ Hdraws]]]].
  assert (Hskip :
            checkBeforeSend = false
            \/ checkBeforeSend = true
               /\ res (isExpired svc (verify_email_sent_at user)
                         VERIFY_EMAIL_TOKEN_EXPIRATION_DURATION_IN_MINUTES
                         w) = Ok true).
  { destruct checkBeforeSend; [right|left; reflexivity].
    destruct Hissue as [H|H]; [discriminate H|auto]. }
  clear Hissue. cbv zeta. unfold last_reading.
  destruct Hskip as [-> | [-> He]];
    run_flow; rewrite Hfind; cbn [res final trace app];
    rewrite Hver; cbn [res final trace app]; try expiry He;
    rewrite ?Hdraws;
    cbn [res final trace app negb reads tick drawn with_users Nat.pred
         users];
    rewrite ?Hu; reflexivity.
Qed.

(** X17. A verification code does its round trip, and then the address is
    settled.  When [sendEmailAddressVerificationEmail] has issued a code for
    an unverified account, [verifyEmail] with that code succeeds, provided
    the code is not empty, no other account holds the same code, and the
    clock has advanced by sixty minutes at most.  Its one update marks the
    account verified and clears the code and its timestamp, and from then
    on [sendEmailAddressVerificationEmail] for that address throws
    [email_verified_already]. *)
Theorem verify_email_round_trip :
  forall (svc : Services) (w : World) (email' : string)
         (checkBeforeSend : bool) (user : User),
    user_by_email email' (users w) = Some user ->
    email_verified user = false ->
    checkBeforeSend = false
    \/ res (isExpired svc (verify_email_sent_at user)
              VERIFY_EMAIL_TOKEN_EXPIRATION_DURATION_IN_MINUTES w) = Ok true ->
    svc_pin_token svc (draws w) <> "" ->
    (forall u, In u (users w) ->
               verify_email_token u = Some (svc_pin_token svc (draws w)) ->
               id u = id user) ->
    let w1 := final (sendEmailAddressVerificationEmail
                       svc email' checkBeforeSend w) in
    svc_clock svc (reads w1) - last_reading svc w1 <= 60 * 60000 ->
    let r := verifyEmail svc (Some (svc_pin_token svc (draws w))) w1 in
    (exists v, res r = Ok v)
    /\ writes (trace r) =
       [EvUpdate (id user) [Email_verified true;
                            Verify_email_token None;
                            Verify_email_sent_at JNull]]
    /\ (forall u, In u (users (final r)) -> id u = id user ->
                  email_verified u = true
                  /\ verify_email_token u = None
                  /\ verify_email_sent_at u = JNull)
    /\ forall checkBeforeSend',
        rejected (sendEmailAddressVerificationEmail
                    svc email' checkBeforeSend' (final r))
                 (final r) email_verified_already.
Proof.
  intros svc w email' checkBeforeSend user Hfind Hver Hissue Hne Hfresh.
  pose proof (sendEmailAddressVerificationEmail_stores
                svc w email' checkBeforeSend user Hfind Hver Hissue) as Hus.
  generalize dependent
    (final (sendEmailAddressVerificationEmail svc email' checkBeforeSend w)).
  intros w1 Hus. cbv zeta in *. intro Hclock.
  destruct (issued_token_lookup VerifyEmail (svc_pin_token svc (draws w))
              (users w) (id user)
              [Verify_email_token (Some (svc_pin_token svc (draws w)));
               Verify_email_sent_at (JIsoString (last_reading svc w1))]
              (last_reading svc w1) Hne)
    as [u' [Hlook [Hid Hsent]]].
  - intro u; destruct u; split; reflexivity.
  - exists user. split; [eapply user_by_email_In; eauto | reflexivity].
  - exact Hfresh.
  - rewrite <- Hus in Hlook. rewrite verifyEmail_run. cbv zeta.
    rewrite Hlook. cbn [sent_at_of] in Hsent. rewrite Hsent.
    rewrite isExpired_run. cbn [res final].
    unfold VERIFY_EMAIL_TOKEN_EXPIRATION_DURATION_IN_MINUTES.
    destruct (Z.gtb_spec (svc_clock svc (reads w1) - last_reading svc w1)
                         (60 * 60000)) as [Hgt|_]; [lia|].
    cbn [res final trace writes filter is_write users tick with_users].
    rewrite Hid.
    split; [eexists; reflexivity|]. split; [reflexivity|]. split.
    + intros u Hin Hu.
      destruct (update_rows_inv _ _ _ _ Hin Hu) as [u0 [_ [_ ->]]].
      destruct u0; repeat split.
    + intro checkBeforeSend'. run_flow. cbn [users with_users].
      rewrite Hus, !user_by_email_update_rows, Hfind.
      cbn [option_map]. rewrite Z.eqb_refl, id_apply_patch, Z.eqb_refl.
      cbn [res final trace app defined ret].
      destruct user; cbn. rejects.
Qed.

(** ** Expiration only goes one way *)

(** X18. Expiration only goes one way: a timestamp that [isExpired] finds
    expired is found expired again at any clock reading that is not
    earlier, and for any window that is not longer. *)
Theorem isExpired_monotone :
  forall (svc : Services) (t : jsvalue) (d d' : Z) (w w' : World),
    svc_clock svc (reads w) <= svc_clock svc (reads w') ->
    d' <= d ->
    res (isExpired svc t d w) = Ok true ->
    res (isExpired svc t d' w') = Ok true.
Proof.
  intros svc t d d' w w' Hclock Hd. rewrite !isExpired_run.
  destruct t; cbn [res]; try reflexivity.
  intro H. injection H as H. f_equal.
  apply Z.gtb_lt in H. apply Z.gtb_lt. lia.
Qed.

(** ** Asking again within the window *)

(** X19. Asking again does not send again.  Right after
    [sendEmailAddressVerificationEmail] has issued a code, the same request
    with [checkBeforeSend] set returns [false] as long as the clock has
    advanced by sixty minutes at most: its only call is the lookup, so no
    code is drawn, nothing is written and no mail is sent.  The same holds
    for [sendOfficialContactEmailVerificationEmail], which then reports
    that no code was sent. *)
Theorem asking_again_sends_nothing :
  forall (svc : Services) (w : World),
    (forall email' checkBeforeSend user,
        user_by_email email' (users w) = Some user ->
        email_verified user = false ->
        checkBeforeSend = false
        \/ res (isExpired svc (verify_email_sent_at user)
                  VERIFY_EMAIL_TOKEN_EXPIRATION_DURATION_IN_MINUTES w)
           = Ok true ->
        let w1 := final (sendEmailAddressVerificationEmail
                           svc email' checkBeforeSend w) in
        svc_clock svc (reads w1) - last_reading svc w1 <= 60 * 60000 ->
        let r := sendEmailAddressVerificationEmail svc email' true w1 in
        res r = Ok false /\ trace r = [EvFindByEmail email']
        /\ same_store w1 (final r))
    /\ (forall user_id organization_id checkBeforeSend user organization
               contact,
           find (fun m => m_id m =? user_id)
                (users_of organization_id (members w)) = Some user ->
           organization_by_id organization_id (organizations w)
           = Some organization ->
           needs_official_contact_email_verification user = true ->
           svc_getContactEmail
             svc (cached_code_officiel_geographique organization)
           = Some contact ->
           checkBeforeSend = false
           \/ res (isExpired
                     svc (official_contact_email_verification_sent_at user)
                     OFFICIAL_CONTACT_EMAIL_VERIFICATION_TOKEN_EXPIRATION_DURATION_IN_MINUTES
                     w) = Ok true ->
           let w1 := final (sendOfficialContactEmailVerificationEmail
                              svc user_id organization_id checkBeforeSend w) in
           svc_clock svc (reads w1) - last_reading svc w1 <= 60 * 60000 ->
           let r := sendOfficialContactEmailVerificationEmail
                      svc user_id organization_id true w1 in
           res r = Ok (mkCodeSent false contact
                                  (cached_libelle organization))
           /\ writes (trace r) = [] /\ mails (trace r) = []
           /\ generations (trace r) = []
           /\ same_store w1 (final r)).
Proof.
  intros svc w. split.
  - intros email' checkBeforeSend user Hfind Hver Hissue.
    pose proof (sendEmailAddressVerificationEmail_stores
                  svc w email' checkBeforeSend user Hfind Hver Hissue) as Hus.
    generalize dependent
      (final (sendEmailAddressVerificationEmail
                svc email' checkBeforeSend w)).
    intros w1 Hus. cbv zeta in *. intro Hclock.
    run_flow. rewrite Hus, user_by_email_update_rows, Hfind.
    cbn [option_map]. rewrite Z.eqb_refl.
    cbn [res final trace app defined ret].
    destruct user; cbn [apply_patch assign email_verified
                        verify_email_sent_at timestamptz] in *.
    rewrite Hver. rewrite isExpired_run.
    unfold VERIFY_EMAIL_TOKEN_EXPIRATION_DURATION_IN_MINUTES.
    destruct (Z.gtb_spec (svc_clock svc (reads w1) - last_reading svc w1)
                         (60 * 60000)) as [Hgt|_]; [lia|].
    cbn [res final trace app negb].
    split; [reflexivity|]. split; [reflexivity | auto with flows].
  - intros user_id organization_id checkBeforeSend user organization contact
           Huser Horg Hneeds Hcontact Hissue.
    destruct (sendOfficialContactEmailVerificationEmail_stores
                svc w user_id organization_id checkBeforeSend user
                organization contact Huser Horg Hneeds Hcontact Hissue)
      as [Ho Hm].
    generalize dependent
      (final (sendOfficialContactEmailVerificationEmail
                svc user_id organization_id checkBeforeSend w)).
    intros w1 Ho Hm. cbv zeta. intro Hclock.
    assert (Hfind :
              find (fun m => m_id m =? user_id)
                   (users_of organization_id (members w1))
              = Some (apply_link_patch
                        [Official_contact_email_verification_token
                           (Some (svc_diceware_password svc (draws w)));
                         Official_contact_email_verification_sent_at
                           (JDate (last_reading svc w1))]
                        user)).
    { rewrite Hm at 1. rewrite find_updated_member, Huser. reflexivity. }
    run_flow. rewrite Hfind, Ho, Horg.
    destruct user; cbn [apply_link_patch assign_link timestamptz
                        needs_official_contact_email_verification
                        official_contact_email_verification_sent_at
                        res final trace app] in *.
    rewrite Hneeds. cbn [negb res final trace app]. rewrite Hcontact.
    cbn [res final trace app]. rewrite isExpired_run.
    unfold OFFICIAL_CONTACT_EMAIL_VERIFICATION_TOKEN_EXPIRATION_DURATION_IN_MINUTES.
    destruct (Z.gtb_spec (svc_clock svc (reads w1) - last_reading svc w1)
                         (60 * 60000)) as [Hgt|_]; [lia|].
    cbn [res final trace app negb writes mails generations filter is_write
         is_generation].
    repeat (split; [reflexivity|]). auto with flows.
Qed.

(** ** Memberships and organizations *)

Lemma link_settles_refl : forall ms, Forall2 link_settles ms ms.
Proof.
  induction ms as [|m ms IH]; constructor; [|exact IH].
  repeat split; auto.
Qed.

Lemma link_settles_trans :
  forall ms ms' ms'',
    Forall2 link_settles ms ms' -> Forall2 link_settles ms' ms'' ->
    Forall2 link_settles ms ms''.
Proof.
  intros ms ms' ms'' H. revert ms''.
  induction H as [|m m' ms ms' [Ho [Hi [He Hn]]] _ IH]; intros ms'' H'.
  - inversion H'. constructor.
  - inversion H' as [|m0 m'' ms0 ms0' [Ho' [Hi' [He' Hn']]] Hrest]; subst.
    constructor; [|auto].
    repeat split; try congruence. auto.
Qed.

Lemma link_settles_update :
  forall o i fields ms,
    (forall m, link_settles m (apply_link_patch fields m)) ->
    Forall2 link_settles ms (update_links o i fields ms).
Proof.
  intros o i fields ms H. unfold update_links.
  induction ms as [|m ms IH]; cbn [map]; constructor; [|exact IH].
  destruct (is_link o i m); [apply H|]. repeat split; auto.
Qed.

Lemma invoke_settles :
  forall svc c w,
    organizations (final (invoke svc c w)) = organizations w
    /\ Forall2 link_settles (members w) (members (final (invoke svc c w))).
Proof.
  intros svc c w. destruct c; every_branch;
    repeat match goal with
           | |- context [final (isExpired ?s ?t ?d ?w0)] =>
               let Hm := fresh "Hm" in
               let Ho := fresh "Ho" in
               destruct (isExpired_same_store s t d w0)
                 as [_ [Hm [Ho _]]];
               generalize dependent (final (isExpired s t d w0)); intros
           end;
    cbn [organizations members with_users with_members with_new_user tick
         drawn];
    (split; [congruence|]);
    repeat match goal with H : members _ = members _ |- _ =>
                             rewrite H; clear H end;
    first [ apply link_settles_refl
          | apply link_settles_update;
            let m := fresh "m" in
            intro m; destruct m; cbn; repeat split; auto; discriminate ].
Qed.

(** X20. The flows never add, remove or move a membership and never write
    an organization: over any sequence of calls the organizations are the
    same, every membership row keeps its organization, its user and the
    user's address, and a member's need for the verification of the
    official contact e-mail is never raised again once it is cleared. *)
Theorem memberships_persist :
  forall (svc : Services) (calls : list Call) (w : World),
    organizations (final (perform_all svc calls w)) = organizations w
    /\ Forall2 link_settles (members w)
               (members (final (perform_all svc calls w))).
Proof.
  intros svc calls. induction calls as [|c calls IH]; intro w.
  - split; [reflexivity | apply link_settles_refl].
  - rewrite perform_all_cons.
    destruct (IH (final (perform svc c w))) as [Ho Hm].
    destruct (perform_invoke svc c w) as [_ Hf].
    destruct (invoke_settles svc c w) as [Ho' Hm'].
    rewrite Hf in *. split; [congruence|].
    eapply link_settles_trans; eauto.
Qed.

(** ** A magic link is good for ten minutes *)

(** X21. After [sendSendMagicLinkEmail] for a known account, and provided
    the token issued is not empty and no other account holds it,
    [loginWithMagicLink] with that token succeeds when the clock has
    advanced by ten minutes at most, and then marks the address verified
    and clears the token and its timestamp in one update; when the clock
    has advanced by more than ten minutes it is rejected with
    [invalid_magic_link] and nothing is written. *)
Theorem magic_link_round_trip :
  forall (svc : Services) (email' : string) (w : World) (user : User),
    user_by_email email' (users w) = Some user ->
    svc_token svc (draws w) <> "" ->
    (forall u, In u (users w) ->
               magic_link_token u = Some (svc_token svc (draws w)) ->
               id u = id user) ->
    let token := svc_token svc (draws w) in
    let w1 := final (sendSendMagicLinkEmail svc email' w) in
    let elapsed := svc_clock svc (S (reads w)) - svc_clock svc (reads w) in
    let r := loginWithMagicLink svc (Some token) w1 in
    (elapsed <= 10 * 60000 ->
     (exists v, res r = Ok v)
     /\ writes (trace r) =
        [EvUpdate (id user) [Email_verified true;
                             Magic_link_token None;
                             Magic_link_sent_at JNull]]
     /\ forall u, In u (users (final r)) -> id u = id user ->
                  email_verified u = true
                  /\ magic_link_token u = None
                  /\ magic_link_sent_at u = JNull)
    /\ (10 * 60000 < elapsed -> rejected r w1 invalid_magic_link).
Proof.
  intros svc email' w user Hfind Hne Hfresh token w1 elapsed r.
  subst r elapsed.
  assert (Hw1 :
            w1 = with_users
                   (update_rows (id user)
                      [Magic_link_token (Some token);
                       Magic_link_sent_at
                         (JIsoString (svc_clock svc (reads w)))]
                      (users w))
                   (tick (drawn w))).
  { subst w1 token. run_flow. rewrite Hfind. reflexivity. }
  destruct (issued_token_lookup MagicLink token (users w) (id user)
              [Magic_link_token (Some token);
               Magic_link_sent_at (JIsoString (svc_clock svc (reads w)))]
              (svc_clock svc (reads w)) Hne)
    as [u' [Hlook [Hid Hsent]]].
  - intro u; destruct u; split; reflexivity.
  - exists user. split; [eapply user_by_email_In; eauto | reflexivity].
  - exact Hfresh.
  - assert (Hfalsy : falsy (Some token) = false).
    { cbn [falsy]. apply String.eqb_neq. exact Hne. }
    rewrite loginWithMagicLink_run. rewrite Hfalsy. cbv zeta.
    rewrite Hw1. cbn [users with_users].
    rewrite Hlook. cbn [sent_at_of] in Hsent. rewrite Hsent.
    rewrite isExpired_run. cbn [res final reads with_users tick drawn].
    unfold MAGIC_LINK_TOKEN_EXPIRATION_DURATION_IN_MINUTES.
    destruct (Z.gtb_spec (svc_clock svc (S (reads w))
                          - svc_clock svc (reads w)) (10 * 60000))
      as [Hgt|Hle].
    + split; [intro H; lia|]. intros _. rejects.
    + split; [|intro H; lia]. intros _.
      cbn [res final trace writes filter is_write]. rewrite Hid.
      split; [eexists; reflexivity|]. split; [reflexivity|].
      intros u Hin Hu. cbn [users with_users] in Hin.
      destruct (update_rows_inv _ _ _ _ Hin Hu) as [u0 [_ [_ ->]]].
      destruct u0; repeat split.
Qed.

(** ** The further properties on the small store *)

Lemma updatePersonalInformations_contract_witness :
  updatePersonalInformations Demo.services 2 JNull (JString "B")
    (JString "0600000000") (JString "agent") Demo.world
  = mkRun (Throw invalid_personal_informations) Demo.world []
  /\ exists v,
      res (updatePersonalInformations Demo.services 2 (JString "Bob")
             (JString "B") (JString "0600000000") (JString "agent")
             Demo.world) = Ok v.
Proof.
  split.
  - destruct (updatePersonalInformations_contract Demo.services 2 JNull
                (JString "B") (JString "0600000000") (JString "agent")
                Demo.world) as [H _].
    apply H. reflexivity.
  - destruct (updatePersonalInformations_contract Demo.services 2
                (JString "Bob") (JString "B") (JString "0600000000")
                (JString "agent") Demo.world) as [_ [_ H]].
    destruct H as [Hv _]; [reflexivity | reflexivity | exact Hv].
Defined.

Lemma sendResetPasswordEmail_known_account_witness :
  res (sendResetPasswordEmail Demo.services "alice@example.org" Demo.world)
  = Ok true
  /\ writes (trace (sendResetPasswordEmail Demo.services "alice@example.org"
                      Demo.world))
     = [EvUpdate 1 [Reset_password_token (Some "tok-a");
                    Reset_password_sent_at (JIsoString 10000000)]].
Proof.
  destruct (sendResetPasswordEmail_known_account Demo.services
              "alice@example.org" Demo.world Demo.alice eq_refl)
    as [Hr [_ [Hw _]]].
  exact (conj Hr Hw).
Defined.

Lemma sendSendMagicLinkEmail_contract_witness :
  res (sendSendMagicLinkEmail Demo.services "carol@example.org" Demo.world)
  = Ok true
  /\ writes (trace (sendSendMagicLinkEmail Demo.services "carol@example.org"
                      Demo.world))
     = [EvUpdate 3 [Magic_link_token (Some "tok-a");
                    Magic_link_sent_at (JIsoString 10000000)]].
Proof.
  destruct (sendSendMagicLinkEmail_contract Demo.services
              "carol@example.org" Demo.world) as [Hr [_ [_ H]]].
  destruct (H Demo.carol eq_refl) as [Hw _].
  exact (conj Hr Hw).
Defined.


Lemma thrown_call_changes_nothing_witness :
  same_store Demo.world
    (final (invoke Demo.services (CallChangePassword (Some "reset-abc") "short")
              Demo.world)).
Proof.
  destruct (thrown_call_changes_nothing Demo.services
              (CallChangePassword (Some "reset-abc") "short") Demo.world
              weak_password eq_refl) as [_ [_ H]].
  exact H.
Defined.

Lemma mail_follows_its_write_witness :
  exists m before e t,
    In m (mails (trace (invoke Demo.services
                          (CallSendResetPasswordEmail "alice@example.org")
                          Demo.world)))
    /\ trace (invoke Demo.services
                (CallSendResetPasswordEmail "alice@example.org") Demo.world)
       = before ++ [e; EvSendMail m]
    /\ stores_token e t
    /\ carries m t.
Proof.
  destruct (mail_follows_its_write Demo.services
              (CallSendResetPasswordEmail "alice@example.org") Demo.world)
    as [_ H].
  destruct (H _ (or_introl eq_refl)) as [before [e [t [Ht [Hs Hc]]]]].
  eexists. exists before, e, t.
  split; [left; reflexivity|]. split; [exact Ht|]. split; [exact Hs|exact Hc].
Defined.

Lemma column_changes_only_by_its_calls_witness :
  exists kept added,
    users (final (perform_all Demo.services
                    [CallLogin "alice@example.org" "correct horse";
                     CallSendResetPasswordEmail "bob@example.org"]
                    Demo.world)) = kept ++ added
    /\ Forall2 (same_column ColEncryptedPassword) (users Demo.world) kept.
Proof.
  apply column_changes_only_by_its_calls.
  intros c [<-|[<-|[]]]; cbn; intros [H|[H|[]]]; discriminate H.
Defined.

Lemma addresses_stay_unique_witness :
  NoDup (map email
           (users (final (perform_all Demo.services
                            [CallSignup "dave@example.org" "a long passphrase";
                             CallSignup "dave@example.org" "another long one";
                             CallSendSendMagicLinkEmail "dave@example.org";
                             CallSendSendMagicLinkEmail "erin@example.org"]
                            Demo.world)))).
Proof.
  apply addresses_stay_unique. cbn.
  repeat constructor; cbn; intros H;
    repeat (destruct H as [H|H]; [discriminate H|]); exact H.
Defined.

Lemma signup_then_login_witness :
  exists v,
    res (login Demo.services "dave@example.org" "a long passphrase"
           (final (signup Demo.services "dave@example.org"
                     "a long passphrase" Demo.world))) = Ok v.
Proof.
  destruct (signup_then_login Demo.services "dave@example.org"
              "a long passphrase" Demo.world eq_refl eq_refl eq_refl)
    as [H _].
  exact H.
Defined.

Lemma reset_password_round_trip_witness :
  exists v,
    res (changePassword Demo.services (Some "tok-a") "a long passphrase"
           (final (sendResetPasswordEmail Demo.services "alice@example.org"
                     Demo.world))) = Ok v.
Proof.
  destruct (reset_password_round_trip Demo.services "alice@example.org"
              "a long passphrase" Demo.world Demo.alice) as [H _].
  - reflexivity.
  - discriminate.
  - intros u [<-|[<-|[<-|[]]]] H; try discriminate H; reflexivity.
  - vm_compute. discriminate.
  - reflexivity.
  - exact H.
Defined.

Lemma token_single_use_witness :
  rejected (verifyEmail Demo.services (Some "222222")
              (final (verifyEmail Demo.services (Some "222222") Demo.world)))
           (final (verifyEmail Demo.services (Some "222222") Demo.world))
           invalid_token.
Proof.
  destruct (token_single_use Demo.services Demo.world) as [H _].
  refine (H (Some "222222") _ eq_refl _ eq_refl).
  intros u u' [<-|[<-|[<-|[]]]] [<-|[<-|[<-|[]]]] H1 H2;
    try discriminate H1; try discriminate H2; reflexivity.
Defined.

Lemma official_contact_verified_once_witness :
  rejected (verifyOfficialContactEmailToken Demo.services 1 10 "brume-cactus"
              (final (verifyOfficialContactEmailToken Demo.services 1 10
                        "brume-cactus" Demo.world)))
           (final (verifyOfficialContactEmailToken Demo.services 1 10
                     "brume-cactus" Demo.world))
           InvalidTokenError.
Proof.
  destruct (official_contact_verified_once Demo.services 1 10 "brume-cactus"
              Demo.world _ eq_refl) as [H _].
  exact (H "brume-cactus").
Defined.

Lemma official_contact_round_trip_witness :
  exists v,
    res (verifyOfficialContactEmailToken Demo.services 1 10 "brume-cactus"
           (final (sendOfficialContactEmailVerificationEmail Demo.services
                     1 10 false Demo.world))) = Ok v.
Proof.
  destruct (official_contact_round_trip Demo.services Demo.world 1 10 false
              Demo.alice_member Demo.commune "mairie@commune.example")
    as [H _].
  - reflexivity.
  - reflexivity.
  - reflexivity.
  - reflexivity.
  - left. reflexivity.
  - vm_compute. discriminate.
  - exact H.
Defined.

Lemma verify_email_round_trip_witness :
  exists v,
    res (verifyEmail Demo.services (Some "482913")
           (final (sendEmailAddressVerificationEmail Demo.services
                     "bob@example.org" true Demo.world))) = Ok v.
Proof.
  destruct (verify_email_round_trip Demo.services Demo.world
              "bob@example.org" true Demo.bob) as [H _].
  - reflexivity.
  - reflexivity.
  - right. reflexivity.
  - discriminate.
  - intros u [<-|[<-|[<-|[]]]] H; try discriminate H; reflexivity.
  - vm_compute. discriminate.
  - exact H.
Defined.

Lemma isExpired_monotone_witness :
  res (isExpired Demo.services (JDate (10000000 - 61 * 60000)) 10
         (tick Demo.world)) = Ok true.
Proof.
  apply (isExpired_monotone Demo.services (JDate (10000000 - 61 * 60000))
           60 10 Demo.world (tick Demo.world)).
  - vm_compute. discriminate.
  - lia.
  - reflexivity.
Defined.

Lemma asking_again_sends_nothing_witness :
  res (sendEmailAddressVerificationEmail Demo.services "carol@example.org"
         true
         (final (sendEmailAddressVerificationEmail Demo.services
                   "carol@example.org" false Demo.world))) = Ok false.
Proof.
  destruct (asking_again_sends_nothing Demo.services Demo.world) as [H _].
  destruct (H "carol@example.org" false Demo.carol) as [Hr _].
  - reflexivity.
  - reflexivity.
  - left. reflexivity.
  - vm_compute. discriminate.
  - exact Hr.
Defined.

Lemma magic_link_round_trip_witness :
  exists v,
    res (loginWithMagicLink Demo.services (Some "tok-a")
           (final (sendSendMagicLinkEmail Demo.services "carol@example.org"
                     Demo.world))) = Ok v.
Proof.
  destruct (magic_link_round_trip Demo.services "carol@example.org"
              Demo.world Demo.carol) as [H _].
  - reflexivity.
  - discriminate.
  - intros u [<-|[<-|[<-|[]]]] H; try discriminate H; reflexivity.
  - destruct H as [Hv _]; [vm_compute; discriminate | exact Hv].
Defined.
